(** * MOEA/D (pymoo/algorithms/moo/moead.py): a shallow embedding

    The development follows the Python module top to bottom:
    - the few numpy operations the module relies on (slicing, [vstack],
      [min] along axis 0, broadcasting row assignment, [argsort]);
    - [NeighborhoodSelection._do];
    - [MOEAD.__init__], [_setup], [_post_initialize], [_replace], [_advance];
    - [ParallelMOEAD._infill] and [ParallelMOEAD._advance].

    Objective values, weights and scalarized values are floating point
    numbers in the code; they are modelled by exact rationals ([Q]).
    Individuals are Python objects: the population is a list of references
    into a store, so that two population slots can hold the same object. *)

From Stdlib Require Import QArith Qminmax Qabs Lqa Sorting.Sorted.
From stdpp Require Import base tactics option list sorting gmap strings.

Local Open Scope Q_scope.
Local Open Scope nat_scope.

(** ** Exceptions and fallible computations *)

Inductive exn : Set :=
  | IndexError
  | ValueError
  | AssertionError
  | TypeError
  | KeyError
  | Exception.

Inductive result (A : Type) : Type :=
  | Ok (a : A)
  | Raise (e : exn).
Arguments Ok {A} a.
Arguments Raise {A} e.

Global Instance result_ret : MRet result := λ A a, Ok a.
Global Instance result_bind : MBind result := λ A B f m,
  match m with
  | Ok a => f a
  | Raise e => Raise e
  end.
Global Instance result_fmap : FMap result := λ A B f m,
  match m with
  | Ok a => Ok (f a)
  | Raise e => Raise e
  end.

(** [o ?! e]: the value of an optional lookup, or exception [e]. *)
Definition or_raise {A} (o : option A) (e : exn) : result A :=
  match o with
  | Some a => Ok a
  | None => Raise e
  end.
Infix "?!" := or_raise (at level 45, no associativity).

(** Apply a fallible function to every element, left to right; the first
    exception wins. *)
Fixpoint traverse {A B} (f : A → result B) (l : list A) : result (list B) :=
  match l with
  | [] => Ok []
  | x :: l' => y ← f x; ys ← traverse f l'; Ok (y :: ys)
  end.

(** A fallible left fold: the loop [for x in l: s = body(s, x)]. *)
Fixpoint foldM {S A} (body : S → A → result S) (s : S) (l : list A) : result S :=
  match l with
  | [] => Ok s
  | x :: l' => s' ← body s x; foldM body s' l'
  end.

(** ** Rational comparisons *)

Definition Qltb (x y : Q) : bool := negb (Qle_bool y x).

(** ** numpy fragments *)

(** Python slice [l[:k]] for an arbitrary integer [k]: a negative stop
    counts from the end. *)
Definition py_slice_to {A} (k : Z) (l : list A) : list A :=
  if (0 <=? k)%Z then take (Z.to_nat k) l
  else take (length l - Z.to_nat (- k)) l.

(** [np.vstack(rows)]: every row must have the width of the first. *)
Definition vstack (rows : list (list Q)) : result (list (list Q)) :=
  match rows with
  | [] => Raise ValueError
  | r :: rs =>
      if forallb (λ r', Nat.eqb (length r') (length r)) rs then Ok rows
      else Raise ValueError
  end.

(** [np.min(m, axis=0)]: coordinate-wise minimum of the rows of [m];
    a matrix without rows has no minimum. *)
Definition np_min_axis0 (m : list (list Q)) : result (list Q) :=
  match m with
  | [] => Raise ValueError
  | r :: rs => Ok (foldl (zip_with Qmin) r rs)
  end.

(** [row[:] = v] for a row of width [n]: [v] is broadcast to width [n],
    which numpy accepts when [v] has width [n] or width 1. *)
Definition broadcast_to {A} (n : nat) (v : list A) : result (list A) :=
  if Nat.eqb (length v) n then Ok v
  else match v with
       | [x] => Ok (replicate n x)
       | _ => Raise ValueError
       end.

(** [a[idx]] for an index array: every index must be in range. *)
Definition take_indices {A} (a : list A) (idx : list nat) : result (list A) :=
  traverse (λ n, a !! n ?! IndexError) idx.

(** A Euclidean distance between rational points is the square root of a
    non-negative rational: [Sqrt q] stands for that root, and two
    distances compare as their radicands do. *)
Record dist : Set := Sqrt { radicand : Q }.

Definition dist_le (a b : dist) : Prop := (radicand a <= radicand b)%Q.
Definition dist_leb (a b : dist) : bool := Qle_bool (radicand a) (radicand b).

Definition euclidean (u v : list Q) : dist :=
  Sqrt (foldr Qplus 0%Q (zip_with (λ x y, (x - y) * (x - y))%Q u v)).

(** [scipy.spatial.distance.cdist(XA, XB)] with its default metric, on
    two-dimensional arrays given as lists of rows (there may be none). *)
Definition cdist (XA XB : list (list Q)) : list (list dist) :=
  (λ u, (λ v, euclidean u v) <$> XB) <$> XA.

(** The key an index refers to in an [argsort] call. *)
Definition key_at (keys : list dist) (a : nat) : dist :=
  default (Sqrt 0) (keys !! a).

(** What [np.argsort(keys)] guarantees of its result, whatever the sorting
    algorithm and its treatment of equal keys: the indices [0 .. len-1],
    each once, in non-decreasing order of their keys. *)
Definition is_argsort (keys : list dist) (p : list nat) : Prop :=
  p ≡ₚ seq 0 (length keys) ∧
  Sorted (λ a b, dist_le (key_at keys a) (key_at keys b)) p.

(** One implementation of it: a merge sort of the indices. *)
Definition key_leb (keys : list dist) (a b : nat) : Prop :=
  dist_leb (key_at keys a) (key_at keys b) = true.

Global Instance key_leb_dec keys a b : Decision (key_leb keys a b).
Proof. unfold key_leb. apply _. Defined.

Definition argsort_merge (keys : list dist) : list nat :=
  merge_sort (key_leb keys) (seq 0 (length keys)).


(** [np.where(mask)[0]]: the positions at which [mask] holds, ascending. *)
Definition np_where (mask : list bool) : list nat :=
  filter (λ j, mask !! j = Some true) (seq 0 (length mask)).

(** [np.atleast_2d] of the array built from a list of rows: the array
    built from no row at all is [array([])], one row of width 0. *)
Definition atleast_2d (rows : list (list Q)) : list (list Q) :=
  match rows with
  | [] => [[]]
  | _ => rows
  end.

(** ** Collaborators outside the module *)

(** numpy's global random state, threaded explicitly. *)
Class RandomState := {
  rng : Type;
  (** [np.random.random()] *)
  np_random : rng → Q * rng;
  (** [np.random.permutation(n)] *)
  np_permutation : nat → rng → list nat * rng;
}.

(** [np.random.permutation(n)] returns the numbers below [n], each once. *)
Class RandomStateSpec (RS : RandomState) : Prop :=
  np_permutation_perm : ∀ n s, (np_permutation n s).1 ≡ₚ seq 0 n.

(** [np.argsort] along a row. *)
Class ArgSort := argsort : list dist → list nat.

Class ArgSortSpec (AS : ArgSort) : Prop :=
  argsort_is_argsort : ∀ keys, is_argsort keys (argsort keys).

(** A scalarizing function: objective vector, weight vector and ideal
    point to a scalar (lower is better). *)
Definition Decomposition : Type := list Q → list Q → list Q → Q.

(** An individual: decision vector [X], objective vector [F] (unset until
    the evaluator has run) and the attribute ["i"] of the batched engine. *)
Record Individual : Type := {
  X : list Q;
  F : option (list Q);
  attr_i : option nat;
}.

Definition loc := positive.

(** The number of offspring requested from the mating: a number or
    [np.inf]. *)
Inductive count : Set :=
  | Finite (n : nat)
  | Inf.

(** The mating of the base class with its crossover, the problem's
    objective function behind the evaluator, and the decomposition
    factory. *)
Class Collaborators (RS : RandomState) := {
  (** [self.mating.crossover.n_parents] *)
  n_parents : nat;
  (** [self.mating.crossover.n_offsprings] *)
  n_offsprings : nat;
  (** [self.mating.do(problem, pop, n, parents=P)]: new individuals *)
  mating_do : gmap loc Individual → list loc → count → list (list nat) →
              rng → result (list Individual * rng);
  (** the objective vector the evaluator computes from a decision vector *)
  evaluate : list Q → list Q;
  (** [pymoo.factory.get_decomposition(name)] *)
  get_decomposition : string → result Decomposition;
}.

Record Problem : Set := {
  n_obj : nat;
  has_constraints : bool;
}.

(** ** NeighborhoodSelection *)

Section selection.
Context {RS : RandomState}.

(** [np.random.choice(a, size, replace=False)]: numpy draws a
    permutation of the positions of [a] and keeps the first [size]. *)
Definition np_choice (a : list nat) (size : nat) (s : rng) :
    result (list nat * rng) :=
  if Nat.ltb (length a) size then Raise ValueError
  else
    let '(p, s') := np_permutation (length a) s in
    v ← take_indices a (take size p);
    Ok (v, s').

(** The body of the loop of [_do] for one anchor [j]: the row [P[i]]. *)
Definition select_row (neighbors : list (list nat)) (prob : Q)
    (len_pop n_par j : nat) (s : rng) : result (list nat * rng) :=
  let '(u, s1) := np_random s in
  if Qltb u prob then
    Nj ← neighbors !! j ?! IndexError;
    '(v, s2) ← np_choice Nj n_par s1;
    row ← broadcast_to n_par v;
    Ok (row, s2)
  else
    let '(p, s2) := np_permutation len_pop s1 in
    row ← broadcast_to n_par (take n_par p);
    Ok (row, s2).

Fixpoint select_rows (neighbors : list (list nat)) (prob : Q)
    (len_pop n_par : nat) (k : list nat) (s : rng) :
    result (list (list nat) * rng) :=
  match k with
  | [] => Ok ([], s)
  | j :: k' =>
      '(row, s1) ← select_row neighbors prob len_pop n_par j s;
      '(rows, s2) ← select_rows neighbors prob len_pop n_par k' s1;
      Ok (row :: rows, s2)
  end.

(** [NeighborhoodSelection._do(pop, n_select, n_parents, k)] *)
Definition NeighborhoodSelection_do (neighbors : list (list nat)) (prob : Q)
    (len_pop n_select n_par : nat) (k : option (list nat)) (s : rng) :
    result (list (list nat) * rng) :=
  let '(k, s0) :=
    match k with
    | Some k => (k, s)
    | None => let '(p, s') := np_permutation len_pop s in (take n_select p, s')
    end in
  if negb (Nat.eqb (length k) n_select) then Raise AssertionError
  else select_rows neighbors prob len_pop n_par k s0.
End selection.

(** What a request anchored at [j] is to return when the number drawn
    for it is [u]: [n_par] distinct indices, from row [j] of the table if
    [u < prob] and from the whole index range otherwise. *)
Definition valid_parents (neighbors : list (list nat)) (prob : Q)
    (len_pop n_par j : nat) (u : Q) (row : list nat) : Prop :=
  length row = n_par ∧ NoDup row ∧
  if Qltb u prob then ∃ Nj, neighbors !! j = Some Nj ∧ row ⊆ Nj
  else Forall (λ a, a < len_pop) row.

(** The requests [k] are served in order from random state [s] with the
    tuples [P]: every request draws its own number from the state the
    previous request left. *)
Inductive requests_served {RS : RandomState} (neighbors : list (list nat))
    (prob : Q) (len_pop n_par : nat) :
    list nat → rng → list (list nat) → rng → Prop :=
  | served_none s :
      requests_served neighbors prob len_pop n_par [] s [] s
  | served_next j k s row s1 P s2 :
      select_row neighbors prob len_pop n_par j s = Ok (row, s1) →
      valid_parents neighbors prob len_pop n_par j (np_random s).1 row →
      requests_served neighbors prob len_pop n_par k s1 P s2 →
      requests_served neighbors prob len_pop n_par (j :: k) s (row :: P) s2.

(** The contract of a request: the anchor has a row, without repeated
    index, and neither the row nor the population is smaller than the
    number of parents asked for. *)
Definition request_ok (neighbors : list (list nat)) (len_pop n_par j : nat) :
    Prop :=
  n_par ≤ len_pop ∧
  ∃ Nj, neighbors !! j = Some Nj ∧ NoDup Nj ∧ n_par ≤ length Nj.

(** The bounds within which a request anchored at [j] returns whatever
    number is drawn for it: the anchor has a row, and neither the row
    nor the population is smaller than the number of parents. *)
Definition request_in_bounds (neighbors : list (list nat))
    (len_pop n_par j : nat) : Prop :=
  n_par ≤ len_pop ∧ ∃ Nj, neighbors !! j = Some Nj ∧ n_par ≤ length Nj.

(** The tuple [row] is the sample the code draws for a request anchored
    at [j] from random state [s], which leaves state [s']: one number
    [u], then one permutation; if [u < prob] the permutation is of the
    positions of row [j] and the tuple holds the entries of the row at
    its first [n_par] positions; otherwise the permutation is of the
    population indices and the tuple is its first [n_par] entries. *)
Definition sampled_parents {RS : RandomState} (neighbors : list (list nat))
    (prob : Q) (len_pop n_par j : nat) (s : rng) (row : list nat) (s' : rng) :
    Prop :=
  let u := (np_random s).1 in
  let s1 := (np_random s).2 in
  if Qltb u prob then
    ∃ Nj, neighbors !! j = Some Nj ∧
          s' = (np_permutation (length Nj) s1).2 ∧
          Forall2 (λ a x, Nj !! a = Some x)
                  (take n_par (np_permutation (length Nj) s1).1) row
  else
    s' = (np_permutation len_pop s1).2 ∧
    row = take n_par (np_permutation len_pop s1).1.

(** The tuple [row] is made of [n_par] indices of the right set, taken
    at distinct positions: indices of row [j] if [u < prob] (distinct as
    soon as the row repeats no index), distinct population indices
    otherwise. *)
Definition distinct_parents (neighbors : list (list nat)) (prob : Q)
    (len_pop n_par j : nat) (u : Q) (row : list nat) : Prop :=
  length row = n_par ∧
  if Qltb u prob
  then ∃ Nj, neighbors !! j = Some Nj ∧ row ⊆ Nj ∧ (NoDup Nj → NoDup row)
  else NoDup row ∧ Forall (λ a, a < len_pop) row.

(** The requests [k] are served in order from random state [s] with the
    tuples [P], each the sample drawn from the state that the previous
    request left. *)
Inductive requests_sampled {RS : RandomState} (neighbors : list (list nat))
    (prob : Q) (len_pop n_par : nat) :
    list nat → rng → list (list nat) → rng → Prop :=
  | sampled_none s :
      requests_sampled neighbors prob len_pop n_par [] s [] s
  | sampled_next j k s row s1 P s2 :
      sampled_parents neighbors prob len_pop n_par j s row s1 →
      distinct_parents neighbors prob len_pop n_par j (np_random s).1 row →
      requests_sampled neighbors prob len_pop n_par k s1 P s2 →
      requests_sampled neighbors prob len_pop n_par (j :: k) s (row :: P) s2.

(** ** MOEAD *)

(** The [decomposition] option: a name, or a ready instance. *)
Inductive decomposition_option : Type :=
  | ByName (name : string)
  | ByInstance (d : Decomposition).

(** The attributes [__init__] sets; they are never assigned again. *)
Record MOEAD : Type := {
  ref_dirs : list (list Q);
  n_neighbors : Z;
  prob_neighbor_mating : Q;
  decomposition : decomposition_option;
  neighbors : list (list nat);
  (** the [pop_size] handed to the base class *)
  pop_size : nat;
}.

(** The attributes that change while the algorithm runs: the population
    (references into the store of individuals), the ideal point and the
    decomposition resolved by [_post_initialize]. *)
Record State : Type := {
  pop : list loc;
  heap : gmap loc Individual;
  ideal : list Q;
  _decomposition : Decomposition;
}.

Definition set_pop (st : State) (p : list loc) : State :=
  {| pop := p; heap := heap st; ideal := ideal st;
     _decomposition := _decomposition st |}.

Definition set_ideal (st : State) (z : list Q) : State :=
  {| pop := pop st; heap := heap st; ideal := z;
     _decomposition := _decomposition st |}.

Definition set_heap (st : State) (h : gmap loc Individual) : State :=
  {| pop := pop st; heap := h; ideal := ideal st;
     _decomposition := _decomposition st |}.

(** [ind.F] of the object at [l]; an unevaluated individual has none.
    The module computes with the objective vectors of evaluated
    individuals; what numpy makes of a missing one is not modelled
    beyond this error. *)
Definition get_F (h : gmap loc Individual) (l : loc) : result (list Q) :=
  ind ← h !! l ?! KeyError;
  F ind ?! TypeError.

(** [pop.get("F")]: one row per individual. *)
Definition Population_get_F (h : gmap loc Individual) (p : list loc) :
    result (list (list Q)) :=
  traverse (get_F h) p.

(** A new object in the store. *)
Definition alloc (h : gmap loc Individual) (ind : Individual) :
    loc * gmap loc Individual :=
  let l := fresh (dom h) in (l, <[l := ind]> h).

Fixpoint alloc_all (h : gmap loc Individual) (inds : list Individual) :
    list loc * gmap loc Individual :=
  match inds with
  | [] => ([], h)
  | ind :: inds' =>
      let '(l, h1) := alloc h ind in
      let '(ls, h2) := alloc_all h1 inds' in
      (l :: ls, h2)
  end.

(** [np.min(np.vstack([ideal, rows]), axis=0)] *)
Definition ideal_update (z : list Q) (rows : list (list Q)) : result (list Q) :=
  m ← vstack (z :: rows);
  np_min_axis0 m.

(** [pop[idx] = off]: every listed slot is made to refer to [off]. *)
Definition assign_slots (p : list loc) (idx : list nat) (off : loc) : list loc :=
  foldl (λ p' n, <[n := off]> p') p idx.

(** The Euclidean distance between direction [i] and direction [a]. *)
Definition direction_distance (ref_dirs : list (list Q)) (i a : nat) : dist :=
  euclidean (default [] (ref_dirs !! i)) (default [] (ref_dirs !! a)).



(** [z'] is the coordinate-wise minimum of the vector [z] and the vectors
    [rows]: in every coordinate it is below all of them and is one of
    them. *)
Definition is_coordinatewise_min (z : list Q) (rows : list (list Q))
    (z' : list Q) : Prop :=
  length z' = length z ∧
  ∀ k zk, z !! k = Some zk →
    ∃ m, z' !! k = Some m ∧ (m <= zk)%Q ∧
         (∀ r rk, r ∈ rows → r !! k = Some rk → (m <= rk)%Q) ∧
         (m = zk ∨ ∃ r, r ∈ rows ∧ r !! k = Some m).


(** What one neighbor slot needs for [_replace] to read it: a weight
    vector and an evaluated incumbent. *)
Definition readable (self : MOEAD) (st : State) (n : nat) : Prop :=
  is_Some (ref_dirs self !! n) ∧
  ∃ inc f, pop st !! n = Some inc ∧ get_F (heap st) inc = Ok f.

(** The offspring [off] beats the incumbent of slot [n]: its scalarized
    value under the weight vector of [n] and the current ideal point is
    strictly less than the incumbent's. *)
Definition beats (self : MOEAD) (st : State) (off : loc) (n : nat) : Prop :=
  ∃ inc f w off_F,
    pop st !! n = Some inc ∧ get_F (heap st) inc = Ok f ∧
    ref_dirs self !! n = Some w ∧ get_F (heap st) off = Ok off_F ∧
    (_decomposition st off_F w (ideal st) < _decomposition st f w (ideal st))%Q.


(** [pop[n]], dereferenced. *)
Definition slot_object (st : State) (n : nat) : option Individual :=
  l ← pop st !! n; heap st !! l.

(** An in-place change of the object [pop[n]], as [pop[n].set(...)]. *)
Definition update_slot_object (st : State) (n : nat)
    (upd : Individual → Individual) : State :=
  match pop st !! n with
  | Some l => set_heap st (alter upd l (heap st))
  | None => st
  end.

(** The mask [off_FV < FV] of [_replace], from the objective vector of
    the offspring and the objective and weight vectors of the neighbors. *)
Definition better_mask (st : State) (off_F : list Q)
    (FN WN : list (list Q)) : list bool :=
  zip_with Qltb
    ((λ w, _decomposition st off_F w (ideal st)) <$> WN)
    (zip_with (λ f w, _decomposition st f w (ideal st)) FN WN).

Section moead.
Context {AS : ArgSort} {RS : RandomState} {CO : Collaborators RS}.

(** [MOEAD.__init__] on a two-dimensional array [ref_dirs]: no statement
    of it raises; the base class initializer receives
    [pop_size = len(ref_dirs)] and stores it. *)
Definition MOEAD_init (ref_dirs : list (list Q)) (n_neighbors : Z)
    (decomposition : decomposition_option) (prob_neighbor_mating : Q) :
    result MOEAD :=
  let n_neighbors := Z.min (Z.of_nat (length ref_dirs)) n_neighbors in
  let neighbors :=
    (λ row, py_slice_to n_neighbors (argsort row)) <$>
      cdist ref_dirs ref_dirs in
  Ok {| ref_dirs := ref_dirs;
        n_neighbors := n_neighbors;
        prob_neighbor_mating := prob_neighbor_mating;
        decomposition := decomposition;
        neighbors := neighbors;
        pop_size := length ref_dirs |}.

(** [MOEAD._setup] *)
Definition MOEAD_setup (self : MOEAD) (problem : Problem) : result () :=
  if has_constraints problem then Raise AssertionError else Ok ().

(** The name [_post_initialize] hands to [get_decomposition]. *)
Definition decomposition_name (decomp : string) (problem : Problem) : string :=
  if String.eqb decomp "auto" then
    if Nat.leb (n_obj problem) 2 then "tchebi" else "pbi"
  else decomp.

(** [MOEAD._post_initialize], on the initial population [p] in store [h] *)
Definition MOEAD_post_initialize (self : MOEAD) (problem : Problem)
    (p : list loc) (h : gmap loc Individual) : result State :=
  rows ← Population_get_F h p;
  (* the array of the rows: of no row at all, or of rows of one width *)
  m ← match rows with [] => Ok [] | _ => vstack rows end;
  z ← np_min_axis0 m;
  d ← match decomposition self with
      | ByName decomp => get_decomposition (decomposition_name decomp problem)
      | ByInstance d => Ok d
      end;
  Ok {| pop := p; heap := h; ideal := z; _decomposition := d |}.

(** [MOEAD._replace(i, off)]. The two calls of [self._decomposition.do]
    are modelled by the scores they return, one per row; the errors that
    a decomposition raises on arrays it does not accept (no row at all,
    widths that do not fit) are not modelled, so what is stated of
    [_replace] is stated of its successful runs. *)
Definition MOEAD_replace (self : MOEAD) (st : State) (i : nat) (off : loc) :
    result State :=
  N ← neighbors self !! i ?! IndexError;
  popN ← take_indices (pop st) N;
  FN ← Population_get_F (heap st) popN;
  WN ← take_indices (ref_dirs self) N;
  off_F ← get_F (heap st) off;
  let FV := zip_with (λ f w, _decomposition st f w (ideal st)) FN WN in
  let off_FV := (λ w, _decomposition st off_F w (ideal st)) <$> WN in
  let better := np_where (zip_with Qltb off_FV FV) in
  (* pop[N[I]] = off *)
  NI ← take_indices N better;
  Ok (set_pop st (assign_slots (pop st) NI off)).

(** The first half of the body of the loop of [MOEAD._advance] for one
    index [i]: selection, mating, [[0]] and evaluation. The offspring
    is a new object of the store with its [F] set by the evaluator. *)
Definition MOEAD_offspring (self : MOEAD) (st : State) (i : nat) (s : rng) :
    result (loc * State * rng) :=
  '(P, s1) ← NeighborhoodSelection_do (neighbors self)
               (prob_neighbor_mating self) (length (pop st)) 1 n_parents
               (Some [i]) s;
  '(offs, s2) ← mating_do (heap st) (pop st) (Finite 1) P s1;
  off ← head offs ?! IndexError;
  let off := {| X := X off; F := Some (evaluate (X off));
                attr_i := attr_i off |} in
  let '(l, h) := alloc (heap st) off in
  Ok (l, set_heap st h, s2).

(** The body of the loop of [MOEAD._advance] for one index [i]. *)
Definition MOEAD_advance_one (self : MOEAD) (st : State) (i : nat) (s : rng) :
    result (State * rng) :=
  '(off, st1, s1) ← MOEAD_offspring self st i s;
  off_F ← get_F (heap st1) off;
  z ← ideal_update (ideal st1) [off_F];
  st' ← MOEAD_replace self (set_ideal st1 z) i off;
  Ok (st', s1).

Fixpoint MOEAD_advance_loop (self : MOEAD) (st : State) (order : list nat)
    (s : rng) : result (State * rng) :=
  match order with
  | [] => Ok (st, s)
  | i :: order' =>
      '(st1, s1) ← MOEAD_advance_one self st i s;
      MOEAD_advance_loop self st1 order' s1
  end.

(** [MOEAD._advance] *)
Definition MOEAD_advance (self : MOEAD) (st : State) (s : rng) :
    result (State * rng) :=
  let '(order, s0) := np_permutation (length (pop st)) s in
  MOEAD_advance_loop self st order s0.

(** ** ParallelMOEAD *)

(** [off.set("i", I)]: one value per individual. *)
Definition Population_set_i (offs : list Individual) (values : list nat) :
    result (list Individual) :=
  if negb (Nat.eqb (length values) (length offs)) then Raise Exception
  else Ok (zip_with (λ off i, {| X := X off; F := F off; attr_i := Some i |})
                    offs values).

(** [ParallelMOEAD._infill]: the tagged offspring, new in the store *)
Definition ParallelMOEAD_infill (self : MOEAD) (st : State) (s : rng) :
    result (list loc * State * rng) :=
  let '(order, s1) := np_permutation (length (pop st)) s in
  '(P, s2) ← NeighborhoodSelection_do (neighbors self)
               (prob_neighbor_mating self) (length (pop st))
               (pop_size self) n_parents (Some order) s1;
  '(offs, s3) ← mating_do (heap st) (pop st) Inf P s2;
  offs ← take_indices offs
           ((λ a, a * n_offsprings) <$> seq 0 (pop_size self));
  offs ← Population_set_i offs order;
  let '(ls, h) := alloc_all (heap st) offs in
  Ok (ls, set_heap st h, s3).

(** One replacement of the loop of [ParallelMOEAD._advance]: the anchor
    is the attribute ["i"] that [_infill] has set on the offspring (an
    offspring without it is no index of the table). *)
Definition ParallelMOEAD_replace (self : MOEAD) (st : State) (off : loc) :
    result State :=
  ind ← heap st !! off ?! KeyError;
  i ← attr_i ind ?! TypeError;
  MOEAD_replace self st i off.

(** [ParallelMOEAD._advance(infills)] *)
Definition ParallelMOEAD_advance (self : MOEAD) (st : State)
    (infills : list loc) : result State :=
  rows ← Population_get_F (heap st) infills;
  z ← ideal_update (ideal st) (atleast_2d rows);
  foldM (ParallelMOEAD_replace self) (set_ideal st z) infills.

(** Modelled from the spec: the evaluator of the base class, which is
    not part of this module, "populates each individual's objective
    vector" between [_infill] and [_advance]. *)
Definition evaluate_all (h : gmap loc Individual) (ls : list loc) :
    gmap loc Individual :=
  foldl (λ h' l, alter (λ ind, {| X := X ind; F := Some (evaluate (X ind));
                                  attr_i := attr_i ind |}) l h') h ls.

(** Modelled from the spec: one generation of the batched engine as
    the base class drives it: [_infill], evaluation of the batch,
    [_advance(infills)]. *)
Definition ParallelMOEAD_generation (self : MOEAD) (st : State) (s : rng) :
    result (State * rng) :=
  '(infills, st1, s1) ← ParallelMOEAD_infill self st s;
  st2 ← ParallelMOEAD_advance self
          (set_heap st1 (evaluate_all (heap st1) infills)) infills;
  Ok (st2, s1).
End moead.

(** The two engines: [MOEAD] and its subclass [ParallelMOEAD]. *)
Inductive engine : Set :=
  | Sequential
  | Batched.

Section lifetime.
Context {RS : RandomState} {CO : Collaborators RS}.

(** One generation of an engine. *)
Definition generation (e : engine) (self : MOEAD) (st : State) (s : rng) :
    result (State * rng) :=
  match e with
  | Sequential => MOEAD_advance self st s
  | Batched => ParallelMOEAD_generation self st s
  end.

Fixpoint generations (e : engine) (self : MOEAD) (n : nat) (st : State)
    (s : rng) : result (State * rng) :=
  match n with
  | 0 => Ok (st, s)
  | S n' =>
      '(st1, s1) ← generation e self st s;
      generations e self n' st1 s1
  end.

(** Modelled from the spec: the run of the base class, which is not
    part of this module: "core setup fails fatally if constraints are
    present", the ideal point is "initialized once from the minimum
    over the initial population's objective vectors", then the
    generations follow. [p] in store [h] is the evaluated initial
    population. *)
Definition run (e : engine) (self : MOEAD) (problem : Problem)
    (p : list loc) (h : gmap loc Individual) (n : nat) (s : rng) :
    result (State * rng) :=
  _ ← MOEAD_setup self problem;
  st ← MOEAD_post_initialize self problem p h;
  generations e self n st s.
End lifetime.



(** ** Instances used to run the model on concrete inputs *)

Global Instance argsort_merge_inst : ArgSort := argsort_merge.

(** A small deterministic generator: the state is a counter. *)
Global Instance counter_rng : RandomState := {|
  rng := nat;
  np_random := λ s, (Z.of_nat (s mod 10) # 10, S s);
  np_permutation := λ n s,
    (if Nat.even s then seq 0 n else reverse (seq 0 n), S s);
|}.

(** Tchebycheff scalarization: [max_k |f_k - z_k| * w_k]. *)
Definition tchebi : Decomposition := λ f w z,
  foldr Qmax 0%Q
    (zip_with Qmult (zip_with (λ a b, Qabs (a - b)) f z) w).

(** Weighted sum: [sum_k f_k * w_k]. *)
Definition weighted_sum : Decomposition := λ f w z,
  foldr Qplus 0%Q (zip_with Qmult f w).

(** A mating that clones the parents of every tuple (unevaluated), a
    problem whose objectives are the decision variables, and a factory
    that knows two names. *)
Global Instance clone_collaborators : Collaborators counter_rng := {|
  n_parents := 2;
  n_offsprings := 2;
  mating_do := λ h p n P s,
    offs ← traverse (λ row,
              traverse (λ a, l ← p !! a ?! IndexError;
                             ind ← h !! l ?! KeyError;
                             Ok {| X := X ind; F := None; attr_i := None |})
                       row) P;
    Ok (concat offs, s);
  evaluate := λ x, x;
  get_decomposition := λ name,
    if String.eqb name "tchebi" then Ok tchebi
    else if String.eqb name "weighted-sum" then Ok weighted_sum
    else Raise Exception;
|}.

(** Five evenly spaced directions for two objectives. *)
Definition dirs5 : list (list Q) :=
  [[0; 1]; [1#4; 3#4]; [1#2; 1#2]; [3#4; 1#4]; [1; 0]]%Q.

Definition individual (x : list Q) : Individual :=
  {| X := x; F := Some x; attr_i := None |}.

Definition store5 : gmap loc Individual :=
  list_to_map [(1%positive, individual [1#10; 9#10]%Q);
               (2%positive, individual [3#10; 8#10]%Q);
               (3%positive, individual [5#10; 5#10]%Q);
               (4%positive, individual [8#10; 3#10]%Q);
               (5%positive, individual [9#10; 1#10]%Q)].

Definition pop5 : list loc := [1; 2; 3; 4; 5]%positive.

Definition problem2 : Problem := {| n_obj := 2; has_constraints := false |}.

(** The algorithm [MOEAD(dirs5, n_neighbors=3, prob_neighbor_mating=0.9)]. *)
Definition alg5 : MOEAD :=
  {| ref_dirs := dirs5;
     n_neighbors := 3;
     prob_neighbor_mating := 9 # 10;
     decomposition := ByName "auto";
     neighbors := [[0; 1; 2]; [1; 0; 2]; [2; 1; 3]; [3; 4; 2]; [4; 3; 2]];
     pop_size := 5 |}.

(** Its state after [_post_initialize] on the population [pop5]. *)
Definition st5 : State :=
  {| pop := pop5; heap := store5; ideal := [1 # 10; 1 # 10]%Q;
     _decomposition := tchebi |}.

(** The same state with one more object in the store: an evaluated
    offspring that sits on the ideal point. *)
Definition st6 : State :=
  set_heap st5 (<[6%positive := individual [1 # 10; 1 # 10]%Q]> store5).

(** The same state with an evaluated offspring that is worse than every
    incumbent in both objectives. *)
Definition st7 : State :=
  set_heap st5 (<[7%positive := individual [1; 1]%Q]> store5).

(** The states reached from [st5] and [st6] by the steps named. *)
Definition st6_replaced : State :=
  Eval vm_compute in
    match MOEAD_replace alg5 st6 2 6%positive with
    | Ok st' => st'
    | Raise _ => st6
    end.

Definition st5_advanced_one : State :=
  Eval vm_compute in
    match MOEAD_advance_one alg5 st5 2 0 with
    | Ok (st', _) => st'
    | Raise _ => st5
    end.

Definition batch5 : list loc * State :=
  Eval vm_compute in
    match ParallelMOEAD_infill alg5 st5 0 with
    | Ok (ls, st1, _) => (ls, set_heap st1 (evaluate_all (heap st1) ls))
    | Raise _ => ([], st5)
    end.

Definition st5_batch_advanced : State :=
  Eval vm_compute in
    match ParallelMOEAD_advance alg5 batch5.2 batch5.1 with
    | Ok st' => st'
    | Raise _ => st5
    end.

Definition run5 : State * nat :=
  Eval vm_compute in
    match run Batched alg5 problem2 pop5 store5 2 0 with
    | Ok r => r
    | Raise _ => (st5, 0)
    end.

(** The algorithm [MOEAD(dirs5, n_neighbors=20)]. *)
Definition alg5_all : MOEAD :=
  Eval vm_compute in
    match MOEAD_init dirs5 20 (ByName "auto") (9 # 10) with
    | Ok self => self
    | Raise _ => alg5
    end.

(** The states reached from [st5] by one generation of the sequential
    engine and by [_infill]. *)
Definition gen5 : State * nat :=
  Eval vm_compute in
    match generation Sequential alg5 st5 0 with
    | Ok r => r
    | Raise _ => (st5, 0)
    end.

Definition infill5 : list loc * State * nat :=
  Eval vm_compute in
    match ParallelMOEAD_infill alg5 st5 0 with
    | Ok r => r
    | Raise _ => ([], st5, 0)
    end.

(** Every slot of the population refers to an evaluated individual. *)
Definition all_evaluated (st : State) : Prop :=
  Forall (λ l, ∃ f, get_F (heap st) l = Ok f) (pop st).

(** What a step from [st] to [st'] keeps of the individuals: every
    object of the store is still there, unchanged; every slot refers to
    the object it referred to or to an object that did not exist before;
    and if all slots held evaluated individuals, they still do. *)
Definition keeps_individuals (st st' : State) : Prop :=
  heap st ⊆ heap st' ∧
  (∀ n l, pop st' !! n = Some l → pop st !! n = Some l ∨ heap st !! l = None) ∧
  (all_evaluated st → all_evaluated st').

(** * Properties *)

(** ** Fallible computations *)

Lemma bind_Ok {A B} (f : A → result B) (m : result A) (b : B) :
  m ≫= f = Ok b ↔ ∃ a, m = Ok a ∧ f a = Ok b.
Proof.
  destruct m as [a|e]; simpl; split.
  - intros Hf. by exists a.
  - by intros (a' & [= <-] & Hf).
  - done.
  - by intros (a' & [=] & _).
Qed.

Lemma or_raise_Ok {A} (o : option A) (e : exn) (a : A) :
  o ?! e = Ok a ↔ o = Some a.
Proof. destruct o; simpl; split; congruence. Qed.

(** Decompose a successful run into the successful runs of its steps. *)
Ltac inv_ok :=
  repeat match goal with
  | H : _ ≫= _ = Ok _ |- _ =>
      let a := fresh "a" in
      let Ha := fresh "Hstep" in
      apply bind_Ok in H; destruct H as (a & Ha & H)
  | H : _ ?! _ = Ok _ |- _ => apply or_raise_Ok in H
  | H : Ok _ = Ok _ |- _ => injection H as H
  | H : Raise _ = Ok _ |- _ => discriminate H
  | H : (let '(_, _) := ?p in _) = Ok _ |- _ =>
      let E := fresh "Epair" in destruct p eqn:E
  | H : (if ?b then _ else _) = Ok _ |- _ =>
      let E := fresh "Econd" in destruct b eqn:E
  | p : (_ * _)%type |- _ => destruct p
  end.

Lemma traverse_Ok {A B} (f : A → result B) (l : list A) (ys : list B) :
  traverse f l = Ok ys ↔ Forall2 (λ x y, f x = Ok y) l ys.
Proof.
  revert ys. induction l as [|x l IH]; intros ys; simpl.
  - split.
    + intros [= <-]. constructor.
    + intros Hall. by inversion Hall.
  - rewrite bind_Ok. split.
    + intros (y & Hy & Hrest). apply bind_Ok in Hrest as (ys' & Hys & [= <-]).
      constructor; [done|]. by apply IH.
    + intros Hall. inversion Hall as [|? y ? ys' Hy Hys]; subst.
      exists y. split; [done|]. apply bind_Ok. exists ys'.
      split; [by apply IH|done].
Qed.

Lemma traverse_total {A B} (f : A → result B) (l : list A) :
  Forall (λ x, ∃ y, f x = Ok y) l → ∃ ys, traverse f l = Ok ys.
Proof.
  induction 1 as [|x l [y Hy] _ [ys Hys]]; simpl.
  - by eexists.
  - rewrite Hy. simpl. rewrite Hys. simpl. by eexists.
Qed.

Lemma take_indices_Ok {A} (a : list A) (idx : list nat) (v : list A) :
  take_indices a idx = Ok v ↔ Forall2 (λ n x, a !! n = Some x) idx v.
Proof.
  unfold take_indices. rewrite traverse_Ok.
  split; intros Hall; (eapply Forall2_impl; [exact Hall|]);
    intros n x; apply or_raise_Ok.
Qed.

Lemma take_indices_total {A} (a : list A) (idx : list nat) :
  Forall (λ n, n < length a) idx → ∃ v, take_indices a idx = Ok v.
Proof.
  intros Hall. apply traverse_total.
  eapply Forall_impl; [exact Hall|]. intros n Hn. simpl in Hn.
  destruct (lookup_lt_is_Some_2 a n Hn) as [x Hx].
  exists x. by rewrite Hx.
Qed.


(** ** Rational comparisons *)

Lemma Qltb_lt (x y : Q) : Qltb x y = true ↔ (x < y)%Q.
Proof.
  unfold Qltb. rewrite negb_true_iff.
  split.
  - intros Hb. apply Qnot_le_lt. intros Hle.
    apply Qle_bool_iff in Hle. congruence.
  - intros Hlt. destruct (Qle_bool y x) eqn:E; [|done].
    apply Qle_bool_iff in E. exfalso. revert E. by apply Qlt_not_le.
Qed.

Lemma Qltb_irrefl (x : Q) : Qltb x x = false.
Proof.
  destruct (Qltb x x) eqn:E; [|done].
  apply Qltb_lt in E. exfalso. revert E. apply Qlt_irrefl.
Qed.

(** ** Index arrays and slot assignment *)

Lemma np_where_elem (mask : list bool) (j : nat) :
  j ∈ np_where mask ↔ mask !! j = Some true.
Proof.
  unfold np_where. rewrite list_elem_of_filter, elem_of_seq.
  split; [by intros [? _]|].
  intros Hj. split; [done|].
  apply lookup_lt_Some in Hj. lia.
Qed.

Lemma assign_slots_length (p : list loc) (idx : list nat) (off : loc) :
  length (assign_slots p idx off) = length p.
Proof.
  unfold assign_slots. revert p.
  induction idx as [|n idx IH]; intros p; simpl; [done|].
  by rewrite IH, length_insert.
Qed.

Lemma assign_slots_other (p : list loc) (idx : list nat) (off : loc) (n : nat) :
  n ∉ idx → assign_slots p idx off !! n = p !! n.
Proof.
  unfold assign_slots. revert p.
  induction idx as [|m idx IH]; intros p Hn; simpl; [done|].
  apply not_elem_of_cons in Hn as [Hne Hn].
  rewrite IH by done. by apply list_lookup_insert_ne.
Qed.

Lemma assign_slots_hit (p : list loc) (idx : list nat) (off : loc) (n : nat) :
  n ∈ idx → n < length p → assign_slots p idx off !! n = Some off.
Proof.
  unfold assign_slots. revert p.
  induction idx as [|m idx IH]; intros p Hn Hlt; simpl.
  - by apply elem_of_nil in Hn.
  - destruct (decide (n ∈ idx)) as [Hin|Hnotin].
    + apply IH; [done|]. by rewrite length_insert.
    + apply elem_of_cons in Hn as [->|Hin]; [|done].
      fold (assign_slots (<[m:=off]> p) idx off).
      rewrite assign_slots_other by done.
      by apply list_lookup_insert_eq.
Qed.

(** ** The replacement step *)

Section replace.
Context {AS : ArgSort} {RS : RandomState} {CO : Collaborators RS}.

Lemma MOEAD_replace_inv (self : MOEAD) (st st' : State) (i : nat) (off : loc) :
  MOEAD_replace self st i off = Ok st' ↔
  ∃ N popN FN WN off_F NI,
    neighbors self !! i = Some N ∧
    Forall2 (λ n l, pop st !! n = Some l) N popN ∧
    Forall2 (λ l f, get_F (heap st) l = Ok f) popN FN ∧
    Forall2 (λ n w, ref_dirs self !! n = Some w) N WN ∧
    get_F (heap st) off = Ok off_F ∧
    Forall2 (λ j n, N !! j = Some n) (np_where (better_mask st off_F FN WN)) NI ∧
    st' = set_pop st (assign_slots (pop st) NI off).
Proof.
  unfold MOEAD_replace. split.
  - intros H. inv_ok.
    apply take_indices_Ok in Hstep0, Hstep2, Hstep4.
    apply traverse_Ok in Hstep1.
    eexists _, _, _, _, _, _. by repeat split.
  - intros (N & popN & FN & WN & off_F & NI & HN & HpopN & HFN & HWN & HoffF
            & HNI & ->).
    rewrite HN. simpl.
    apply take_indices_Ok in HpopN, HWN, HNI. apply traverse_Ok in HFN.
    rewrite HpopN. simpl. unfold Population_get_F. rewrite HFN. simpl.
    rewrite HWN. simpl. rewrite HoffF. simpl.
    unfold better_mask in HNI. by rewrite HNI.
Qed.

Lemma better_mask_lookup (st : State) (off_F : list Q) (FN WN : list (list Q))
    (j : nat) (f w : list Q) :
  FN !! j = Some f → WN !! j = Some w →
  better_mask st off_F FN WN !! j =
    Some (Qltb (_decomposition st off_F w (ideal st))
               (_decomposition st f w (ideal st))).
Proof.
  intros Hf Hw. unfold better_mask.
  rewrite lookup_zip_with, list_lookup_fmap, lookup_zip_with, Hf, Hw.
  done.
Qed.

Lemma better_mask_length (st : State) (off_F : list Q) (FN WN : list (list Q)) :
  length FN = length WN →
  length (better_mask st off_F FN WN) = length WN.
Proof.
  intros Hlen. unfold better_mask.
  rewrite !length_zip_with, length_fmap. lia.
Qed.

Lemma readable_rows (self : MOEAD) (st : State) (N : list nat) :
  Forall (readable self st) N →
  ∃ popN FN WN,
    Forall2 (λ n l, pop st !! n = Some l) N popN ∧
    Forall2 (λ l f, get_F (heap st) l = Ok f) popN FN ∧
    Forall2 (λ n w, ref_dirs self !! n = Some w) N WN.
Proof.
  induction 1 as [|n N [[w Hw] (inc & f & Hinc & Hf)] _
                   (popN & FN & WN & H1 & H2 & H3)].
  - exists [], [], []. by repeat constructor.
  - exists (inc :: popN), (f :: FN), (w :: WN). by repeat constructor.
Qed.

Lemma written_slots (N : list nat) (mask : list bool) (NI : list nat) :
  Forall2 (λ j n, N !! j = Some n) (np_where mask) NI →
  ∀ n, n ∈ NI ↔ ∃ j, mask !! j = Some true ∧ N !! j = Some n.
Proof.
  intros HNI n. rewrite list_elem_of_lookup. split.
  - intros [k Hk].
    destruct (Forall2_lookup_r _ _ _ _ _ HNI Hk) as (j & Hj & HNj).
    exists j. split; [|done].
    apply np_where_elem. apply list_elem_of_lookup. by exists k.
  - intros (j & Hmask & HNj).
    apply np_where_elem, list_elem_of_lookup in Hmask as [k Hk].
    destruct (Forall2_lookup_l _ _ _ _ _ HNI Hk) as (n' & Hn' & HNj').
    exists k. congruence.
Qed.

(** C1. After a successful [_replace(i, off)] with neighbor row N, the
    slot of each neighbor position j holds the offspring when the
    offspring's scalarized value under that neighbor's weight vector
    and the current ideal point is strictly less than the incumbent's
    under the same weight vector and ideal point, and the incumbent
    otherwise (in particular on ties); no slot outside the row
    changes. *)
Theorem MOEAD_replace_strict_improvement (self : MOEAD) (st st' : State)
    (i : nat) (off : loc) (N : list nat) (off_F : list Q) :
  MOEAD_replace self st i off = Ok st' →
  neighbors self !! i = Some N →
  get_F (heap st) off = Ok off_F →
  (∀ j n inc f w,
     N !! j = Some n → pop st !! n = Some inc →
     get_F (heap st) inc = Ok f → ref_dirs self !! n = Some w →
     let g := λ v, _decomposition st v w (ideal st) in
     ((g off_F < g f)%Q → pop st' !! n = Some off) ∧
     ((g off_F == g f)%Q → pop st' !! n = Some inc) ∧
     (¬ (g off_F < g f)%Q → pop st' !! n = Some inc)) ∧
  (∀ n, n ∉ N → pop st' !! n = pop st !! n).
Proof.
  intros (N' & popN & FN & WN & off_F' & NI & HN' & HpopN & HFN & HWN & HoffF'
          & HNI & ->)%MOEAD_replace_inv HN HoffF.
  assert (N' = N) as -> by congruence.
  assert (off_F' = off_F) as -> by congruence.
  pose proof (written_slots N _ NI HNI) as Hmem.
  assert (Hpos : ∀ j n inc f w,
            N !! j = Some n → pop st !! n = Some inc →
            get_F (heap st) inc = Ok f → ref_dirs self !! n = Some w →
            better_mask st off_F FN WN !! j =
              Some (Qltb (_decomposition st off_F w (ideal st))
                         (_decomposition st f w (ideal st)))).
  { intros j n inc f w HNj Hinc Hf Hw.
    destruct (Forall2_lookup_l _ _ _ _ _ HpopN HNj) as (inc' & HpopNj & Hinc').
    assert (inc' = inc) as -> by congruence.
    destruct (Forall2_lookup_l _ _ _ _ _ HFN HpopNj) as (f' & HFNj & Hf').
    assert (f' = f) as -> by congruence.
    destruct (Forall2_lookup_l _ _ _ _ _ HWN HNj) as (w' & HWNj & Hw').
    assert (w' = w) as -> by congruence.
    by apply better_mask_lookup. }
  simpl. split.
  - intros j n inc f w HNj Hinc Hf Hw.
    pose proof (Hpos j n inc f w HNj Hinc Hf Hw) as Hmask.
    set (g := λ v, _decomposition st v w (ideal st)).
    fold (g off_F) in Hmask. fold (g f) in Hmask.
    assert (Hkeep : ¬ (g off_F < g f)%Q →
              assign_slots (pop st) NI off !! n = Some inc).
    { intros Hnlt. rewrite assign_slots_other; [done|].
      intros (j' & Hmask' & HNj')%Hmem.
      rewrite (Hpos j' n inc f w HNj' Hinc Hf Hw) in Hmask'.
      injection Hmask' as Hb. by apply Qltb_lt in Hb. }
    split; [|split].
    + intros Hlt. apply assign_slots_hit.
      * apply Hmem. exists j. split; [|done].
        rewrite Hmask. f_equal. by apply Qltb_lt.
      * by apply lookup_lt_Some in Hinc.
    + intros Heq. apply Hkeep. intros Hlt. by apply Qlt_not_eq in Hlt.
    + done.
  - intros n Hn. apply assign_slots_other.
    intros (j & _ & HNj)%Hmem. apply Hn.
    apply list_elem_of_lookup. by exists j.
Qed.

Lemma MOEAD_replace_frame (self : MOEAD) (st st' : State) (i : nat) (off : loc) :
  MOEAD_replace self st i off = Ok st' →
  heap st' = heap st ∧ ideal st' = ideal st ∧
  _decomposition st' = _decomposition st ∧
  length (pop st') = length (pop st).
Proof.
  intros (N & popN & FN & WN & off_F & NI & _ & _ & _ & _ & _ & _ & ->)
    %MOEAD_replace_inv.
  simpl. by rewrite assign_slots_length.
Qed.

Lemma MOEAD_replace_winner (self : MOEAD) (st st' : State) (i : nat)
    (off : loc) (N : list nat) (n : nat) :
  MOEAD_replace self st i off = Ok st' →
  neighbors self !! i = Some N →
  n ∈ N → beats self st off n →
  pop st' !! n = Some off.
Proof.
  intros (N' & popN & FN & WN & off_F & NI & HN' & HpopN & HFN & HWN & HoffF
          & HNI & ->)%MOEAD_replace_inv HN Hn
         (inc & f & w & off_F' & Hinc & Hf & Hw & HoffF' & Hlt).
  assert (N' = N) as -> by congruence.
  assert (off_F' = off_F) as -> by congruence.
  apply list_elem_of_lookup in Hn as [j HNj].
  destruct (Forall2_lookup_l _ _ _ _ _ HpopN HNj) as (inc' & HpopNj & Hinc').
  assert (inc' = inc) as -> by congruence.
  destruct (Forall2_lookup_l _ _ _ _ _ HFN HpopNj) as (f' & HFNj & Hf').
  assert (f' = f) as -> by congruence.
  destruct (Forall2_lookup_l _ _ _ _ _ HWN HNj) as (w' & HWNj & Hw').
  assert (w' = w) as -> by congruence.
  simpl. apply assign_slots_hit.
  - apply (written_slots N _ NI HNI). exists j. split; [|done].
    rewrite (better_mask_lookup st off_F FN WN j f w HFNj HWNj).
    f_equal. by apply Qltb_lt.
  - by apply lookup_lt_Some in Hinc.
Qed.

(** C10. When the offspring beats two (or more) neighbors in one
    [_replace], every winning slot refers to the one offspring object:
    the slots hold the same reference, no object is created, and a
    later in-place change made through one slot is seen through the
    other. *)
Theorem MOEAD_replace_shares_offspring (self : MOEAD) (st st' : State)
    (i : nat) (off : loc) (N : list nat) (n1 n2 : nat) :
  MOEAD_replace self st i off = Ok st' →
  neighbors self !! i = Some N →
  n1 ∈ N → n2 ∈ N →
  beats self st off n1 → beats self st off n2 →
  pop st' !! n1 = Some off ∧ pop st' !! n2 = Some off ∧
  heap st' = heap st ∧
  ∀ upd, slot_object (update_slot_object st' n1 upd) n2
         = upd <$> slot_object st' n1.
Proof.
  intros Hrep HN Hn1 Hn2 Hb1 Hb2.
  pose proof (MOEAD_replace_winner _ _ _ _ _ _ _ Hrep HN Hn1 Hb1) as H1.
  pose proof (MOEAD_replace_winner _ _ _ _ _ _ _ Hrep HN Hn2 Hb2) as H2.
  destruct (MOEAD_replace_frame _ _ _ _ _ Hrep) as (Hheap & _).
  repeat split; [done..|].
  intros upd. unfold update_slot_object, slot_object.
  rewrite H1. simpl. rewrite H2. simpl.
  apply lookup_alter_eq.
Qed.
End replace.

(** ** The ideal point *)

Lemma Qmin_cases (x y : Q) : Qmin x y = x ∨ Qmin x y = y.
Proof.
  unfold Qmin, GenericMinMax.gmin. destruct (x ?= y)%Q; auto.
Qed.




Lemma same_width_spec (r : list Q) (rs : list (list Q)) :
  forallb (λ r', Nat.eqb (length r') (length r)) rs = true ↔
  Forall (λ r', length r' = length r) rs.
Proof.
  induction rs as [|r' rs IH]; simpl.
  - split; [constructor|done].
  - rewrite andb_true_iff, Nat.eqb_eq, IH, Forall_cons. done.
Qed.

Lemma vstack_Ok (rows m : list (list Q)) :
  vstack rows = Ok m ↔
  m = rows ∧ ∃ r rs, rows = r :: rs ∧ Forall (λ r', length r' = length r) rs.
Proof.
  unfold vstack. destruct rows as [|r rs].
  - split; [done|]. by intros (_ & r & rs & [=] & _).
  - destruct (forallb _ rs) eqn:E.
    + apply same_width_spec in E. split.
      * intros [= <-]. split; [done|]. by exists r, rs.
      * by intros (-> & _).
    + split; [done|]. intros (_ & r0 & rs0 & [= <- <-] & Hall).
      apply same_width_spec in Hall. congruence.
Qed.

Lemma foldl_Qmin_spec (rows : list (list Q)) (z : list Q) :
  Forall (λ r, length r = length z) rows →
  is_coordinatewise_min z rows (foldl (zip_with Qmin) z rows).
Proof.
  revert z. induction rows as [|r rows IH]; intros z Hall; simpl.
  - split; [done|]. intros k zk Hzk. exists zk.
    split; [done|]. split; [apply Qle_refl|]. split; [|by left].
    intros r rk Hr. by apply elem_of_nil in Hr.
  - apply Forall_cons in Hall as [Hr Hall].
    assert (Hlen1 : length (zip_with Qmin z r) = length z).
    { rewrite length_zip_with. lia. }
    destruct (IH (zip_with Qmin z r)) as [Hlen Hmin].
    { eapply Forall_impl; [exact Hall|]. simpl. intros r' Hr'. lia. }
    split; [lia|].
    intros k zk Hzk.
    destruct (lookup_lt_is_Some_2 r k) as [rk Hrk].
    { apply lookup_lt_Some in Hzk. lia. }
    destruct (Hmin k (Qmin zk rk)) as (m & Hm & Hle & Hrows & Hone).
    { by rewrite lookup_zip_with, Hzk, Hrk. }
    exists m. split; [done|]. split; [|split].
    + eapply Qle_trans; [exact Hle|]. apply Q.le_min_l.
    + intros r' rk' [->|Hr']%elem_of_cons Hrk'.
      * assert (rk' = rk) as -> by congruence.
        eapply Qle_trans; [exact Hle|]. apply Q.le_min_r.
      * by eapply Hrows.
    + destruct Hone as [->|(r' & Hr' & Hm')].
      * destruct (Qmin_cases zk rk) as [->| ->]; [by left|].
        right. exists r. split; [apply elem_of_cons; by left|done].
      * right. exists r'. split; [apply elem_of_cons; by right|done].
Qed.

Lemma ideal_update_Ok (z z' : list Q) (rows : list (list Q)) :
  ideal_update z rows = Ok z' →
  Forall (λ r, length r = length z) rows ∧
  z' = foldl (zip_with Qmin) z rows.
Proof.
  unfold ideal_update. intros H. inv_ok.
  apply vstack_Ok in Hstep as (-> & r & rs & [= <- <-] & Hall).
  simpl in H. by injection H as <-.
Qed.

Lemma ideal_update_total (z : list Q) (rows : list (list Q)) :
  Forall (λ r, length r = length z) rows →
  ideal_update z rows = Ok (foldl (zip_with Qmin) z rows).
Proof.
  intros Hall. unfold ideal_update.
  assert (vstack (z :: rows) = Ok (z :: rows)) as ->; [|done].
  apply vstack_Ok. split; [done|]. by exists z, rows.
Qed.

Lemma ideal_update_min (z z' : list Q) (rows : list (list Q)) :
  ideal_update z rows = Ok z' → is_coordinatewise_min z rows z'.
Proof.
  intros [Hall ->]%ideal_update_Ok. by apply foldl_Qmin_spec.
Qed.

Section engines.
Context {RS : RandomState} {CO : Collaborators RS}.

Lemma MOEAD_offspring_frame (self : MOEAD) (st st1 : State) (i : nat)
    (s s1 : rng) (off : loc) :
  MOEAD_offspring self st i s = Ok (off, st1, s1) →
  pop st1 = pop st ∧ ideal st1 = ideal st ∧
  _decomposition st1 = _decomposition st.
Proof.
  unfold MOEAD_offspring. intros H. inv_ok.
  by simplify_eq.
Qed.

Lemma MOEAD_advance_one_inv (self : MOEAD) (st st' : State) (i : nat)
    (s s' : rng) :
  MOEAD_advance_one self st i s = Ok (st', s') →
  ∃ off st1 off_F z,
    MOEAD_offspring self st i s = Ok (off, st1, s') ∧
    get_F (heap st1) off = Ok off_F ∧
    ideal_update (ideal st) [off_F] = Ok z ∧
    MOEAD_replace self (set_ideal st1 z) i off = Ok st'.
Proof.
  unfold MOEAD_advance_one. intros H. inv_ok. simplify_eq.
  destruct (MOEAD_offspring_frame _ _ _ _ _ _ _ Hstep) as (_ & Hz & _).
  rewrite Hz in Hstep1. by eexists _, _, _, _.
Qed.

Lemma MOEAD_advance_one_frame (self : MOEAD) (st st' : State) (i : nat)
    (s s' : rng) :
  MOEAD_advance_one self st i s = Ok (st', s') →
  length (pop st') = length (pop st) ∧
  _decomposition st' = _decomposition st ∧
  ∃ off_F, ideal_update (ideal st) [off_F] = Ok (ideal st').
Proof.
  intros (off & st1 & off_F & z & Hoff & _ & Hz & Hrep)%MOEAD_advance_one_inv.
  destruct (MOEAD_offspring_frame _ _ _ _ _ _ _ Hoff) as (Hpop & _ & Hd).
  destruct (MOEAD_replace_frame _ _ _ _ _ Hrep) as (_ & Hz' & Hd' & Hlen).
  simpl in *. rewrite Hlen, Hpop, Hd', Hd. repeat split.
  exists off_F. by rewrite Hz'.
Qed.

Lemma ParallelMOEAD_replace_frame (self : MOEAD) (st st' : State) (off : loc) :
  ParallelMOEAD_replace self st off = Ok st' →
  heap st' = heap st ∧ ideal st' = ideal st ∧
  _decomposition st' = _decomposition st ∧
  length (pop st') = length (pop st).
Proof.
  unfold ParallelMOEAD_replace. intros H. inv_ok.
  by eapply MOEAD_replace_frame.
Qed.

Lemma ParallelMOEAD_replace_loop_frame (self : MOEAD) (infills : list loc)
    (st st' : State) :
  foldM (ParallelMOEAD_replace self) st infills = Ok st' →
  heap st' = heap st ∧ ideal st' = ideal st ∧
  _decomposition st' = _decomposition st ∧
  length (pop st') = length (pop st).
Proof.
  revert st. induction infills as [|off infills IH]; intros st H; simpl in H.
  - by injection H as <-.
  - inv_ok.
    destruct (ParallelMOEAD_replace_frame _ _ _ _ Hstep) as (E1 & E2 & E3 & E4).
    destruct (IH _ H) as (E1' & E2' & E3' & E4').
    repeat split; congruence.
Qed.

Lemma ParallelMOEAD_advance_inv (self : MOEAD) (st st' : State)
    (infills : list loc) :
  ParallelMOEAD_advance self st infills = Ok st' ↔
  ∃ rows z,
    Population_get_F (heap st) infills = Ok rows ∧
    ideal_update (ideal st) (atleast_2d rows) = Ok z ∧
    foldM (ParallelMOEAD_replace self) (set_ideal st z) infills = Ok st'.
Proof.
  unfold ParallelMOEAD_advance. split.
  - intros H. inv_ok. by eexists _, _.
  - intros (rows & z & -> & Hz & Hloop). simpl. by rewrite Hz.
Qed.


End engines.

(** ** The neighbor table *)





Global Instance key_le_trans keys :
  Transitive (λ a b, dist_le (key_at keys a) (key_at keys b)).
Proof. intros a b c. unfold dist_le. apply Qle_trans. Qed.

Lemma key_at_cdist_row (ref_dirs : list (list Q)) (i a : nat) (u : list Q) :
  ref_dirs !! i = Some u →
  key_at ((λ v, euclidean u v) <$> ref_dirs) a = direction_distance ref_dirs i a.
Proof.
  intros Hu. unfold key_at, direction_distance.
  rewrite list_lookup_fmap, Hu. simpl.
  destruct (ref_dirs !! a) as [v|]; simpl; [done|].
  unfold euclidean. by destruct u.
Qed.

Lemma py_slice_to_take {A} (k : Z) (n : nat) (l : list A) :
  (0 <= k)%Z → n = Z.to_nat k → py_slice_to k l = take n l.
Proof.
  intros Hk ->. unfold py_slice_to.
  by destruct (Z.leb_spec 0 k); [|lia].
Qed.


Lemma StronglySorted_ext {A} (R R' : relation A) (l : list A) :
  (∀ a b, R a b → R' a b) → StronglySorted R l → StronglySorted R' l.
Proof.
  intros HR. induction 1 as [|a l _ IH Hall]; constructor; [done|].
  eapply Forall_impl; [exact Hall|]. apply HR.
Qed.

Lemma Sorted_weaken {A} (R R' : relation A) (l : list A) :
  (∀ a b, R a b → R' a b) → Sorted R l → Sorted R' l.
Proof.
  intros HR. induction 1 as [|a l _ IH Hhd]; constructor; [done|].
  destruct Hhd; constructor. by apply HR.
Qed.

(** The merge sort of the indices meets the contract of [argsort]. *)
Global Instance argsort_merge_spec : ArgSortSpec argsort_merge_inst.
Proof.
  intros keys. unfold argsort, argsort_merge_inst, argsort_merge. split.
  - apply merge_sort_Permutation.
  - assert (Total (key_leb keys)).
    { intros a b. unfold key_leb, dist_leb.
      destruct (Qle_bool (radicand (key_at keys a)) (radicand (key_at keys b)))
        eqn:E; [by left|right].
      apply Qle_bool_iff. apply Qlt_le_weak, Qnot_le_lt.
      intros Hle%Qle_bool_iff. congruence. }
    pose proof (Sorted_merge_sort (key_leb keys) (seq 0 (length keys))) as Hs.
    eapply Sorted_weaken; [|exact Hs].
    intros a b Hab. unfold key_leb, dist_leb in Hab. by apply Qle_bool_iff.
Qed.

Section neighbor_table.
Context {AS : ArgSort} {ASS : ArgSortSpec AS}.

(** Row [i] of the table: the sorted indices of row [i] of the distance
    matrix, cut by [[:, :n_neighbors]]. *)
Lemma MOEAD_init_row (ref_dirs : list (list Q)) (n : Z)
    (d : decomposition_option) (p : Q) (self : MOEAD) (i : nat) (u : list Q) :
  MOEAD_init ref_dirs n d p = Ok self →
  ref_dirs !! i = Some u →
  neighbors self !! i =
    Some (py_slice_to (Z.min (Z.of_nat (length ref_dirs)) n)
            (argsort ((λ v, euclidean u v) <$> ref_dirs))).
Proof.
  unfold MOEAD_init. intros [= <-] Hu. simpl.
  unfold cdist. by rewrite !list_lookup_fmap, Hu.
Qed.

Lemma MOEAD_init_sizes (dirs : list (list Q)) (n : Z)
    (d : decomposition_option) (p : Q) (self : MOEAD) :
  MOEAD_init dirs n d p = Ok self →
  pop_size self = length dirs ∧
  length (neighbors self) = length dirs ∧
  ref_dirs self = dirs.
Proof.
  unfold MOEAD_init. intros [= <-]. simpl.
  unfold cdist. by rewrite !length_fmap.
Qed.

Lemma argsort_row_perm (ref_dirs : list (list Q)) (u : list Q) :
  argsort ((λ v, euclidean u v) <$> ref_dirs) ≡ₚ seq 0 (length ref_dirs).
Proof.
  destruct (argsort_is_argsort ((λ v, euclidean u v) <$> ref_dirs)) as [Hp _].
  by rewrite length_fmap in Hp.
Qed.

(** Every row of the table lists indices of the population, none twice. *)
Lemma MOEAD_init_row_NoDup (ref_dirs : list (list Q)) (n : Z)
    (d : decomposition_option) (p : Q) (self : MOEAD) (i : nat) (row : list nat) :
  MOEAD_init ref_dirs n d p = Ok self →
  neighbors self !! i = Some row →
  NoDup row ∧ Forall (λ a, a < length ref_dirs) row.
Proof.
  intros Hinit Hrow.
  destruct (MOEAD_init_sizes _ _ _ _ _ Hinit) as (_ & Hlen & _).
  destruct (lookup_lt_is_Some_2 ref_dirs i) as [u Hu].
  { apply lookup_lt_Some in Hrow. lia. }
  rewrite (MOEAD_init_row _ _ _ _ _ _ _ Hinit Hu) in Hrow.
  injection Hrow as <-.
  pose proof (argsort_row_perm ref_dirs u) as Hperm.
  set (q := argsort _) in *.
  assert (Hq : NoDup q) by (rewrite Hperm; apply NoDup_seq).
  assert (Hlt : Forall (λ a, a < length ref_dirs) q).
  { apply Forall_forall. intros a Ha. rewrite Hperm in Ha.
    apply elem_of_seq in Ha. lia. }
  assert (Htake : ∀ k, NoDup (take k q) ∧
                       Forall (λ a, a < length ref_dirs) (take k q)).
  { intros k. split; [|by apply Forall_take].
    eapply sublist_NoDup; [exact Hq|apply sublist_take]. }
  unfold py_slice_to. destruct (0 <=? _)%Z; apply Htake.
Qed.

End neighbor_table.

(** ** Setup *)

Section setup.
Context {AS : ArgSort} {RS : RandomState} {CO : Collaborators RS}.

(** C7. [_setup] raises exactly for the problems that have
    constraints, and returns for the others; a run on a problem with
    constraints stops there with that error, whatever the engine and
    the number of generations asked for, and a run on a problem
    without constraints goes on to the initialization. *)
Theorem MOEAD_setup_rejects_constraints (self : MOEAD) (problem : Problem) :
  (MOEAD_setup self problem = Raise AssertionError
     ↔ has_constraints problem = true) ∧
  (MOEAD_setup self problem = Ok () ↔ has_constraints problem = false) ∧
  ∀ e p h n s,
    run e self problem p h n s =
      if has_constraints problem then Raise AssertionError
      else st ← MOEAD_post_initialize self problem p h;
           generations e self n st s.
Proof.
  unfold run, MOEAD_setup.
  destruct (has_constraints problem); simpl; repeat split; done.
Qed.

(** C8. When [_post_initialize] returns: with [decomposition = "auto"]
    the decomposition in use is the one the factory builds for
    ["tchebi"] if the problem has at most two objectives and the one
    it builds for ["pbi"] otherwise; any other name is handed to the
    factory as it is; an instance is used as supplied. *)
Theorem decomposition_auto_resolution (self : MOEAD) (problem : Problem)
    (p : list loc) (h : gmap loc Individual) (st : State) :
  MOEAD_post_initialize self problem p h = Ok st →
  (decomposition_name "auto" problem = "tchebi" ↔ n_obj problem ≤ 2) ∧
  (decomposition_name "auto" problem = "pbi" ↔ 2 < n_obj problem) ∧
  match decomposition self with
  | ByName name =>
      get_decomposition (decomposition_name name problem)
        = Ok (_decomposition st) ∧
      (name ≠ "auto" → decomposition_name name problem = name)
  | ByInstance d => _decomposition st = d
  end.
Proof.
  intros Hpost.
  assert (Hname : decomposition_name "auto" problem =
                  if Nat.leb (n_obj problem) 2 then "tchebi" else "pbi")
    by done.
  split; [|split].
  - rewrite Hname. destruct (Nat.leb_spec (n_obj problem) 2); split;
      (done || lia).
  - rewrite Hname. destruct (Nat.leb_spec (n_obj problem) 2); split;
      (done || lia).
  - assert (Hd : match decomposition self with
                 | ByName decomp =>
                     get_decomposition (decomposition_name decomp problem)
                 | ByInstance d => Ok d
                 end = Ok (_decomposition st)).
    { unfold MOEAD_post_initialize in Hpost.
      apply bind_Ok in Hpost as (rows & _ & Hpost).
      apply bind_Ok in Hpost as (m & _ & Hpost).
      apply bind_Ok in Hpost as (z & _ & Hpost).
      apply bind_Ok in Hpost as (d & Hd & [= <-]). done. }
    destruct (decomposition self) as [name|d].
    + split; [done|]. intros Hne. unfold decomposition_name.
      destruct (String.eqb_spec name "auto"); done.
    + by injection Hd.
Qed.

Lemma MOEAD_advance_loop_frame (self : MOEAD) (order : list nat)
    (st st' : State) (s s' : rng) :
  MOEAD_advance_loop self st order s = Ok (st', s') →
  length (pop st') = length (pop st).
Proof.
  revert st s. induction order as [|i order IH]; intros st s H; simpl in H.
  - by injection H as <- <-.
  - apply bind_Ok in H as ([st1 s1] & Hone & H).
    destruct (MOEAD_advance_one_frame _ _ _ _ _ _ Hone) as (Hlen & _).
    rewrite <- Hlen. by eapply IH.
Qed.

Lemma ParallelMOEAD_infill_frame (self : MOEAD) (st st1 : State)
    (s s1 : rng) (infills : list loc) :
  ParallelMOEAD_infill self st s = Ok (infills, st1, s1) →
  pop st1 = pop st ∧ ideal st1 = ideal st.
Proof.
  unfold ParallelMOEAD_infill. intros H.
  destruct (np_permutation _ s) as [order s0].
  apply bind_Ok in H as ([P s2] & _ & H).
  apply bind_Ok in H as ([offs s3] & _ & H).
  apply bind_Ok in H as (offs1 & _ & H).
  apply bind_Ok in H as (offs2 & _ & H).
  destruct (alloc_all _ offs2) as [ls h']. by injection H as <- <- <-.
Qed.

Lemma generation_frame (e : engine) (self : MOEAD) (st st' : State)
    (s s' : rng) :
  generation e self st s = Ok (st', s') →
  length (pop st') = length (pop st).
Proof.
  destruct e; simpl.
  - unfold MOEAD_advance. destruct (np_permutation _ s) as [order s0].
    apply MOEAD_advance_loop_frame.
  - unfold ParallelMOEAD_generation. intros H.
    apply bind_Ok in H as ([[infills st1] s1] & Hinfill & H).
    apply bind_Ok in H as (st2 & Hadv & [= <- <-]).
    destruct (ParallelMOEAD_infill_frame _ _ _ _ _ _ Hinfill) as [Hpop _].
    apply ParallelMOEAD_advance_inv in Hadv as (rows & z & _ & _ & Hloop).
    destruct (ParallelMOEAD_replace_loop_frame _ _ _ _ Hloop) as (_ & _ & _ & Hlen).
    simpl in Hlen. congruence.
Qed.

Lemma generations_frame (e : engine) (self : MOEAD) (n : nat)
    (st st' : State) (s s' : rng) :
  generations e self n st s = Ok (st', s') →
  length (pop st') = length (pop st).
Proof.
  revert st s. induction n as [|n IH]; intros st s H; simpl in H.
  - by injection H as <- <-.
  - apply bind_Ok in H as ([st1 s1] & Hgen & H).
    rewrite <- (generation_frame _ _ _ _ _ _ Hgen). by eapply IH.
Qed.

(** C9. The constructor fixes the population size to the number of
    reference directions, which is also the number of rows of the
    neighbor table; a run started on a population of that size still
    has a population of that size after any number of generations of
    either engine. *)
Theorem population_size_invariant (e : engine) (dirs : list (list Q))
    (n : Z) (d : decomposition_option) (prob : Q) (self : MOEAD)
    (problem : Problem) (p : list loc) (h : gmap loc Individual)
    (gens : nat) (s s' : rng) (st' : State) :
  MOEAD_init dirs n d prob = Ok self →
  length p = pop_size self →
  run e self problem p h gens s = Ok (st', s') →
  pop_size self = length (ref_dirs self) ∧
  length (neighbors self) = length (ref_dirs self) ∧
  length (pop st') = length (ref_dirs self).
Proof.
  intros Hinit Hp Hrun.
  assert (Hsizes : pop_size self = length dirs ∧
                   length (neighbors self) = length dirs ∧
                   ref_dirs self = dirs).
  { unfold MOEAD_init in Hinit. injection Hinit as <-. simpl.
    unfold cdist. by rewrite !length_fmap. }
  destruct Hsizes as (Hsize & Hrows & ->).
  split; [done|]. split; [done|].
  unfold run in Hrun.
  apply bind_Ok in Hrun as (_ & _ & Hrun).
  apply bind_Ok in Hrun as (st & Hpost & Hrun).
  apply generations_frame in Hrun. rewrite Hrun.
  unfold MOEAD_post_initialize in Hpost.
  apply bind_Ok in Hpost as (rows & _ & Hpost).
  apply bind_Ok in Hpost as (m & _ & Hpost).
  apply bind_Ok in Hpost as (z & _ & Hpost).
  apply bind_Ok in Hpost as (d' & _ & [= <-]). simpl. congruence.
Qed.
End setup.

(** ** Mating selection *)

Section selection_properties.
Context {RS : RandomState} {RSS : RandomStateSpec RS}.

Lemma np_permutation_take (n k : nat) (s : rng) :
  k ≤ n →
  let q := take k (np_permutation n s).1 in
  length q = k ∧ NoDup q ∧ Forall (λ a, a < n) q.
Proof.
  intros Hk. pose proof (np_permutation_perm n s) as Hperm.
  set (p := (np_permutation n s).1) in *. simpl.
  pose proof (Permutation_length Hperm) as Hlen. rewrite length_seq in Hlen.
  split; [apply length_take_le; lia|]. split.
  - eapply sublist_NoDup; [|apply sublist_take].
    rewrite Hperm. apply NoDup_seq.
  - apply Forall_take, Forall_forall. intros a Ha.
    rewrite Hperm in Ha. apply elem_of_seq in Ha. lia.
Qed.

Lemma broadcast_to_same {A} (n : nat) (v : list A) :
  length v = n → broadcast_to n v = Ok v.
Proof. intros Hlen. unfold broadcast_to. by rewrite Hlen, Nat.eqb_refl. Qed.

Lemma take_indices_NoDup (a idx v : list nat) :
  NoDup a → NoDup idx →
  Forall2 (λ n x, a !! n = Some x) idx v →
  NoDup v ∧ v ⊆ a.
Proof.
  intros Ha Hidx Hv. split.
  - apply NoDup_alt. intros i1 i2 x H1 H2.
    destruct (Forall2_lookup_r _ _ _ _ _ Hv H1) as (n1 & Hn1 & Hx1).
    destruct (Forall2_lookup_r _ _ _ _ _ Hv H2) as (n2 & Hn2 & Hx2).
    assert (n1 = n2) as -> by exact (NoDup_lookup a n1 n2 x Ha Hx1 Hx2).
    exact (NoDup_lookup idx i1 i2 n2 Hidx Hn1 Hn2).
  - intros x [i Hi]%list_elem_of_lookup.
    destruct (Forall2_lookup_r _ _ _ _ _ Hv Hi) as (n & _ & Hx).
    apply list_elem_of_lookup. by exists n.
Qed.

Lemma select_row_valid (neighbors : list (list nat)) (prob : Q)
    (len_pop n_par j : nat) (s : rng) :
  request_ok neighbors len_pop n_par j →
  ∃ row s1,
    select_row neighbors prob len_pop n_par j s = Ok (row, s1) ∧
    valid_parents neighbors prob len_pop n_par j (np_random s).1 row.
Proof.
  intros (Hpop & Nj & HNj & Hnodup & Hn).
  unfold select_row, valid_parents.
  destruct (np_random s) as [u s1]. simpl.
  destruct (Qltb u prob).
  - rewrite HNj. simpl. unfold np_choice.
    destruct (Nat.ltb_spec (length Nj) n_par) as [?|_]; [lia|].
    destruct (np_permutation_take (length Nj) n_par s1 Hn)
      as (Hlen & Hq & Hlt).
    destruct (np_permutation (length Nj) s1) as [p s2]. simpl in *.
    destruct (take_indices_total Nj (take n_par p) Hlt) as [v Hv].
    rewrite Hv. simpl. apply take_indices_Ok in Hv.
    pose proof (Forall2_length _ _ _ Hv) as Hvlen.
    rewrite broadcast_to_same by lia. simpl.
    destruct (take_indices_NoDup _ _ _ Hnodup Hq Hv) as [Hvnd Hsub].
    exists v, s2. split; [done|]. split; [lia|]. split; [done|].
    by exists Nj.
  - destruct (np_permutation_take len_pop n_par s1 Hpop) as (Hlen & Hq & Hlt).
    destruct (np_permutation len_pop s1) as [p s2]. simpl in *.
    rewrite broadcast_to_same by done. simpl.
    by exists (take n_par p), s2.
Qed.

Lemma select_row_sampled (neighbors : list (list nat)) (prob : Q)
    (len_pop n_par j : nat) (s : rng) :
  request_in_bounds neighbors len_pop n_par j →
  ∃ row s1,
    select_row neighbors prob len_pop n_par j s = Ok (row, s1) ∧
    sampled_parents neighbors prob len_pop n_par j s row s1 ∧
    distinct_parents neighbors prob len_pop n_par j (np_random s).1 row.
Proof.
  intros (Hpop & Nj & HNj & Hn).
  unfold select_row, sampled_parents, distinct_parents.
  destruct (np_random s) as [u s1]. simpl.
  destruct (Qltb u prob).
  - rewrite HNj. simpl. unfold np_choice.
    destruct (Nat.ltb_spec (length Nj) n_par) as [?|_]; [lia|].
    destruct (np_permutation_take (length Nj) n_par s1 Hn)
      as (Hlen & Hq & Hlt).
    destruct (np_permutation (length Nj) s1) as [p s2] eqn:Ep. simpl in *.
    destruct (take_indices_total Nj (take n_par p) Hlt) as [v Hv].
    rewrite Hv. simpl. apply take_indices_Ok in Hv.
    pose proof (Forall2_length _ _ _ Hv) as Hvlen.
    rewrite broadcast_to_same by lia. simpl.
    exists v, s2. split; [done|]. split; [exists Nj; by rewrite Ep|].
    split; [lia|]. exists Nj. split; [done|]. split.
    + intros x [k Hk]%list_elem_of_lookup.
      destruct (Forall2_lookup_r _ _ _ _ _ Hv Hk) as (a & _ & Hx).
      apply list_elem_of_lookup. by exists a.
    + intros Hnodup. by destruct (take_indices_NoDup _ _ _ Hnodup Hq Hv).
  - destruct (np_permutation_take len_pop n_par s1 Hpop) as (Hlen & Hq & Hlt).
    destruct (np_permutation len_pop s1) as [p s2]. simpl in *.
    rewrite broadcast_to_same by done. simpl.
    by exists (take n_par p), s2.
Qed.

(** C5 (as the code has it). For requests within bounds (every anchor
    has a row of the table, and the number of parents exceeds neither
    that row nor the population), [_do] returns one tuple per request,
    in order. A request draws one number [u] and then one permutation:
    if [u < prob] its tuple holds the entries of the anchor's row at the
    first [n_parents] positions of a permutation of the row's positions
    (a sample without replacement: [n_parents] entries of the row at
    distinct positions); otherwise its tuple is the first [n_parents]
    entries of a permutation of the population indices ([n_parents]
    distinct indices). Each request draws from the random state that the
    previous request left. *)
Theorem NeighborhoodSelection_do_samples (neighbors : list (list nat))
    (prob : Q) (len_pop n_par : nat) (k : list nat) (s : rng) :
  Forall (request_in_bounds neighbors len_pop n_par) k →
  ∃ P s',
    NeighborhoodSelection_do neighbors prob len_pop (length k) n_par
      (Some k) s = Ok (P, s') ∧
    length P = length k ∧
    requests_sampled neighbors prob len_pop n_par k s P s'.
Proof.
  intros Hk. unfold NeighborhoodSelection_do.
  rewrite Nat.eqb_refl. simpl.
  revert s. induction Hk as [|j k Hj _ IH]; intros s; simpl.
  - exists [], s. repeat split. constructor.
  - destruct (select_row_sampled neighbors prob len_pop n_par j s Hj)
      as (row & s1 & Hrow & Hsample & Hdistinct).
    destruct (IH s1) as (P & s2 & HP & Hlen & Hserved).
    rewrite Hrow. simpl. rewrite HP. simpl.
    exists (row :: P), s2. split; [done|]. split; [simpl; lia|].
    by econstructor.
Qed.
End selection_properties.

(** ** The constructor does not validate its arguments *)

Section constructor.
Context {AS : ArgSort} {ASS : ArgSortSpec AS}.
Context {RS : RandomState} {CO : Collaborators RS}.

(** The width the slice [[:, :K]] leaves of a row of [M] indices. *)
Lemma py_slice_to_length {A} (K : Z) (l : list A) :
  length (py_slice_to K l) =
    if (0 <=? K)%Z then Z.to_nat K `min` length l
    else length l - Z.to_nat (- K).
Proof.
  unfold py_slice_to. destruct (0 <=? K)%Z; rewrite length_take; lia.
Qed.

(** C6 (as the code has it). The constructor accepts every direction
    set and every neighborhood size: it returns an algorithm whose
    effective size is [min(M, n_neighbors)], whose population size and
    number of rows are M, and whose rows are cut by the slice
    [[:, :K]] (no entry for K = 0, the first M - |K| sorted indices for
    a negative K). With an empty population, the first error is the
    [ValueError] of [_post_initialize], which has no minimum to take. *)
Theorem MOEAD_init_accepts_any_size (dirs : list (list Q)) (n : Z)
    (d : decomposition_option) (prob : Q) :
  ∃ self,
    MOEAD_init dirs n d prob = Ok self ∧
    n_neighbors self = Z.min (Z.of_nat (length dirs)) n ∧
    pop_size self = length dirs ∧
    length (neighbors self) = length dirs ∧
    Forall (λ row,
              length row =
                if (0 <=? n_neighbors self)%Z
                then Z.to_nat (n_neighbors self)
                else length dirs - Z.to_nat (- n_neighbors self))
           (neighbors self) ∧
    ∀ problem h, MOEAD_post_initialize self problem [] h = Raise ValueError.
Proof.
  eexists. split; [reflexivity|]. simpl.
  split; [done|]. split; [done|].
  unfold cdist. split; [by rewrite !length_fmap|]. split; [|done].
  apply Forall_forall. intros row Hrow.
  apply list_elem_of_fmap in Hrow as (keys & -> & Hkeys).
  apply list_elem_of_fmap in Hkeys as (u & -> & _).
  rewrite py_slice_to_length.
  rewrite (Permutation_length (argsort_row_perm dirs u)), length_seq.
  destruct (0 <=? _)%Z eqn:E; [|done].
  apply Z.leb_le in E. lia.
Qed.
End constructor.

(** C6 (as stated) fails: with five directions and [n_neighbors = 0] the
    constructor returns an algorithm whose neighbor rows are empty,
    [_setup] and [_post_initialize] return as well, and nothing has been
    raised when the first generation starts; with [n_neighbors = -2]
    every row keeps three indices. *)
Lemma MOEAD_init_nonpositive_size_accepted :
  ¬ (∀ dirs n d prob,
       (n <= 0)%Z ∨ dirs = [] → ∃ e, MOEAD_init dirs n d prob = Raise e) ∧
  (∃ self st,
     MOEAD_init dirs5 0 (ByName "auto") (9 # 10) = Ok self ∧
     neighbors self = [[]; []; []; []; []] ∧
     MOEAD_setup self problem2 = Ok () ∧
     MOEAD_post_initialize self problem2 pop5 store5 = Ok st) ∧
  (∃ self,
     MOEAD_init dirs5 (-2) (ByName "auto") (9 # 10) = Ok self ∧
     length <$> neighbors self = [3; 3; 3; 3; 3]).
Proof.
  split; [|split].
  - intros Hclaim.
    destruct (Hclaim dirs5 0%Z (ByName "auto") (9 # 10)%Q) as [e He]; [by left|].
    discriminate He.
  - eexists _, _. split; [reflexivity|]. split; [reflexivity|].
    split; [reflexivity|]. vm_compute. reflexivity.
  - eexists. split; [reflexivity|]. vm_compute. reflexivity.
Qed.

(** ** The statements above at concrete inputs *)

Lemma counter_rng_spec : RandomStateSpec counter_rng.
Proof.
  intros n s. simpl. destruct (Nat.even s); [done|].
  apply reverse_Permutation.
Qed.



Lemma MOEAD_init_dirs5 : MOEAD_init dirs5 3 (ByName "auto") (9 # 10) = Ok alg5.
Proof. reflexivity. Qed.

Lemma MOEAD_replace_strict_improvement_witness :
  (∀ j n inc f w,
     [2; 1; 3] !! j = Some n → pop st6 !! n = Some inc →
     get_F (heap st6) inc = Ok f → ref_dirs alg5 !! n = Some w →
     let g := λ v, _decomposition st6 v w (ideal st6) in
     ((g [1 # 10; 1 # 10] < g f)%Q →
        pop st6_replaced !! n = Some 6%positive) ∧
     ((g [1 # 10; 1 # 10] == g f)%Q → pop st6_replaced !! n = Some inc) ∧
     (¬ (g [1 # 10; 1 # 10] < g f)%Q → pop st6_replaced !! n = Some inc)) ∧
  (∀ n, n ∉ [2; 1; 3] → pop st6_replaced !! n = pop st6 !! n).
Proof.
  apply (MOEAD_replace_strict_improvement alg5 st6 st6_replaced 2 6%positive
           [2; 1; 3] [1 # 10; 1 # 10]%Q).
  - vm_compute. reflexivity.
  - reflexivity.
  - reflexivity.
Defined.

Lemma MOEAD_replace_shares_offspring_witness :
  pop st6_replaced !! 1 = Some 6%positive ∧
  pop st6_replaced !! 3 = Some 6%positive ∧
  heap st6_replaced = heap st6 ∧
  ∀ upd, slot_object (update_slot_object st6_replaced 1 upd) 3
         = upd <$> slot_object st6_replaced 1.
Proof.
  apply (MOEAD_replace_shares_offspring alg5 st6 st6_replaced 2 6%positive
           [2; 1; 3] 1 3).
  - vm_compute. reflexivity.
  - reflexivity.
  - compute_done.
  - compute_done.
  - eexists _, _, _, _. repeat split; reflexivity.
  - eexists _, _, _, _. repeat split; reflexivity.
Defined.



(** C5 (as stated) fails: a request for two parents on a population of
    one individual, when the number drawn is not below [prob], returns
    the tuple (0, 0), whose indices are not distinct. *)
Lemma NeighborhoodSelection_do_population_of_one :
  NeighborhoodSelection_do (RS := counter_rng) [[0]] 0 1 1 2 (Some [0]) 0
    = Ok ([[0; 0]], 2) ∧
  Qltb (np_random (RandomState := counter_rng) 0).1 0 = false ∧
  ¬ NoDup [0; 0].
Proof.
  split; [reflexivity|]. split; [reflexivity|].
  intros [Hn _]%NoDup_cons. apply Hn, elem_of_cons. by left.
Qed.

Lemma NeighborhoodSelection_do_samples_witness :
  ∃ P s',
    NeighborhoodSelection_do (neighbors alg5) (9 # 10) 5 2 2 (Some [2; 0]) 0
      = Ok (P, s') ∧
    length P = 2 ∧
    requests_sampled (neighbors alg5) (9 # 10) 5 2 [2; 0] 0 P s'.
Proof.
  apply (NeighborhoodSelection_do_samples (RSS := counter_rng_spec)
           (neighbors alg5) (9 # 10)%Q 5 2 [2; 0] 0).
  repeat (apply Forall_cons; split;
            [split; [lia|eexists; split; [reflexivity|simpl; lia]]|]).
  constructor.
Defined.

Lemma MOEAD_init_accepts_any_size_witness :
  ∃ self,
    MOEAD_init dirs5 0 (ByName "auto") (9 # 10) = Ok self ∧
    n_neighbors self = Z.min (Z.of_nat (length dirs5)) 0 ∧
    pop_size self = length dirs5 ∧
    length (neighbors self) = length dirs5 ∧
    Forall (λ row,
              length row =
                if (0 <=? n_neighbors self)%Z
                then Z.to_nat (n_neighbors self)
                else length dirs5 - Z.to_nat (- n_neighbors self))
           (neighbors self) ∧
    ∀ problem h, MOEAD_post_initialize self problem [] h = Raise ValueError.
Proof.
  exact (MOEAD_init_accepts_any_size (ASS := argsort_merge_spec)
           (CO := clone_collaborators) dirs5 0 (ByName "auto") (9 # 10)%Q).
Defined.

Lemma decomposition_auto_resolution_witness :
  (decomposition_name "auto" problem2 = "tchebi" ↔ n_obj problem2 ≤ 2) ∧
  (decomposition_name "auto" problem2 = "pbi" ↔ 2 < n_obj problem2) ∧
  get_decomposition (decomposition_name "auto" problem2)
    = Ok (_decomposition st5) ∧
  ("auto" ≠ "auto" → decomposition_name "auto" problem2 = "auto").
Proof.
  apply (decomposition_auto_resolution alg5 problem2 pop5 store5 st5).
  vm_compute. reflexivity.
Defined.

Lemma population_size_invariant_witness :
  pop_size alg5 = length (ref_dirs alg5) ∧
  length (neighbors alg5) = length (ref_dirs alg5) ∧
  length (pop run5.1) = length (ref_dirs alg5).
Proof.
  apply (population_size_invariant (AS := argsort_merge_inst)
           (RS := counter_rng) Batched dirs5 3
           (ByName "auto") (9 # 10)%Q alg5 problem2 pop5 store5 2 0 run5.2
           run5.1).
  - reflexivity.
  - reflexivity.
  - vm_compute. reflexivity.
Defined.

(** ** Examples *)

(** The ideal point of the objective vectors (1,5), (3,2), (4,4). *)
Example np_min_axis0_example :
  np_min_axis0 [[1; 5]; [3; 2]; [4; 4]]%Q = Ok [1; 2]%Q.
Proof. reflexivity. Qed.

(** One offspring replaces several neighbors: on the ideal point it
    beats the three incumbents of row 2. *)
Example MOEAD_replace_several :
  MOEAD_replace alg5 st6 2 6%positive = Ok st6_replaced ∧
  pop st6 = [1; 2; 3; 4; 5]%positive ∧
  pop st6_replaced = [1; 6; 6; 6; 5]%positive.
Proof. split; [vm_compute; reflexivity|done]. Qed.

(** One offspring replaces no neighbor. *)
Example MOEAD_replace_none :
  MOEAD_replace alg5 st7 2 7%positive = Ok st7.
Proof. vm_compute. reflexivity. Qed.

(** A clone of an incumbent never replaces that incumbent: the two
    scalarized values are equal. *)
Example MOEAD_replace_tie :
  ∃ st', MOEAD_replace alg5 (set_heap st5 (<[8%positive :=
           individual [5 # 10; 5 # 10]%Q]> store5)) 2 8%positive = Ok st' ∧
         pop st' !! 2 = Some 3%positive.
Proof. eexists. split; [vm_compute; reflexivity|done]. Qed.

(** Outside the contract of the selection (two parents asked of a
    population of one individual): the single index is broadcast. *)
Example select_row_population_of_one :
  select_row (RS := counter_rng) [[0]] 0 1 2 0 0 = Ok ([0; 0], 2).
Proof. reflexivity. Qed.

(** Outside the contract (three parents asked of a row of two and of a
    population of two): both branches raise. *)
Example select_row_too_many_parents :
  select_row (RS := counter_rng) [[0; 1]; [1; 0]] 1 2 3 0 0 = Raise ValueError ∧
  select_row (RS := counter_rng) [[0; 1]; [1; 0]] 0 2 3 0 0 = Raise ValueError.
Proof. split; reflexivity. Qed.

(** * Further properties *)

(** ** Mating selection outside its contract *)

Section selection_errors.
Context {RS : RandomState} {RSS : RandomStateSpec RS}.

Lemma np_permutation_length (n : nat) (s : rng) :
  length (np_permutation n s).1 = n.
Proof.
  rewrite (Permutation_length (np_permutation_perm n s)). apply length_seq.
Qed.

Lemma select_rows_served (neighbors : list (list nat)) (prob : Q)
    (len_pop n_par : nat) (k : list nat) (s : rng) :
  Forall (request_ok neighbors len_pop n_par) k →
  ∃ P s',
    select_rows neighbors prob len_pop n_par k s = Ok (P, s') ∧
    requests_served neighbors prob len_pop n_par k s P s'.
Proof.
  intros Hk. revert s. induction Hk as [|j k Hj _ IH]; intros s; simpl.
  - exists [], s. split; [done|constructor].
  - destruct (select_row_valid neighbors prob len_pop n_par j s Hj)
      as (row & s1 & Hrow & Hvalid).
    destruct (IH s1) as (P & s2 & HP & Hserved).
    rewrite Hrow. simpl. rewrite HP. simpl.
    exists (row :: P), s2. split; [done|]. by econstructor.
Qed.

(** X1. Without explicit anchors, [_do] takes the first [n_select]
    entries of a permutation of the population indices: asking for more
    anchors than there are individuals fails its assertion. *)
Theorem NeighborhoodSelection_do_too_many_anchors
    (neighbors : list (list nat)) (prob : Q) (len_pop n_select n_par : nat)
    (s : rng) :
  len_pop < n_select →
  NeighborhoodSelection_do neighbors prob len_pop n_select n_par None s
    = Raise AssertionError.
Proof.
  intros Hlt. unfold NeighborhoodSelection_do.
  pose proof (np_permutation_length len_pop s) as Hlen.
  destruct (np_permutation len_pop s) as [p s']. simpl in Hlen.
  assert ((length (take n_select p) =? n_select) = false) as ->; [|done].
  apply Nat.eqb_neq. rewrite length_take. lia.
Qed.

(** X2. When the number drawn for a request is below [prob], an anchor
    that has no row in the table raises [IndexError], and a row shorter
    than the number of parents raises [ValueError] (from
    [np.random.choice] without replacement). *)
Theorem select_row_neighbors_errors (neighbors : list (list nat)) (prob : Q)
    (len_pop n_par j : nat) (s : rng) :
  Qltb (np_random s).1 prob = true →
  (neighbors !! j = None →
     select_row neighbors prob len_pop n_par j s = Raise IndexError) ∧
  (∀ Nj, neighbors !! j = Some Nj → length Nj < n_par →
     select_row neighbors prob len_pop n_par j s = Raise ValueError).
Proof.
  intros Hu. unfold select_row.
  destruct (np_random s) as [u s1]. simpl in Hu. rewrite Hu. split.
  - by intros ->.
  - intros Nj -> Hlt. simpl. unfold np_choice.
    by destruct (Nat.ltb_spec (length Nj) n_par); [|lia].
Qed.

(** X3. When the number drawn for a request is not below [prob] and the
    population is smaller than the number of parents: a population of
    one individual yields the tuple that repeats index 0 (numpy
    broadcasts the one index over the row of [P]); any other population
    size raises [ValueError]. *)
Theorem select_row_population_too_small (neighbors : list (list nat))
    (prob : Q) (len_pop n_par j : nat) (s : rng) :
  Qltb (np_random s).1 prob = false →
  len_pop < n_par →
  select_row neighbors prob len_pop n_par j s =
    if decide (len_pop = 1)
    then Ok (replicate n_par 0,
             (np_permutation len_pop (np_random s).2).2)
    else Raise ValueError.
Proof.
  intros Hu Hlt. unfold select_row.
  destruct (np_random s) as [u s1]. simpl in *. rewrite Hu.
  pose proof (np_permutation_perm len_pop s1) as Hperm.
  pose proof (np_permutation_length len_pop s1) as Hlen.
  destruct (np_permutation len_pop s1) as [p s2]. simpl in *.
  rewrite take_ge by lia. unfold broadcast_to.
  destruct (Nat.eqb_spec (length p) n_par) as [?|_]; [lia|].
  destruct (decide (len_pop = 1)) as [->|Hne].
  - destruct p as [|x [|y p]]; simpl in Hlen; try lia.
    apply Permutation_singleton_r in Hperm. by injection Hperm as ->.
  - destruct p as [|x [|y p]]; simpl in Hlen; try done; lia.
Qed.

(** X4. Without explicit anchors and within the contract, [_do] serves
    [n_select] distinct anchors, the first entries of the permutation it
    draws, and returns one valid tuple for each. *)
Theorem NeighborhoodSelection_do_random_anchors
    (neighbors : list (list nat)) (prob : Q) (len_pop n_select n_par : nat)
    (s : rng) :
  n_select ≤ len_pop →
  (∀ j, j < len_pop → request_ok neighbors len_pop n_par j) →
  ∃ P s',
    NeighborhoodSelection_do neighbors prob len_pop n_select n_par None s
      = Ok (P, s') ∧
    let k := take n_select (np_permutation len_pop s).1 in
    length k = n_select ∧ NoDup k ∧
    requests_served neighbors prob len_pop n_par k
      (np_permutation len_pop s).2 P s'.
Proof.
  intros Hn Hok.
  destruct (np_permutation_take len_pop n_select s Hn) as (Hlen & Hnd & Hlt).
  assert (Hall : Forall (request_ok neighbors len_pop n_par)
                   (take n_select (np_permutation len_pop s).1)).
  { eapply Forall_impl; [exact Hlt|]. intros j Hj. by apply Hok. }
  pose proof (select_rows_served neighbors prob len_pop n_par
                _ (np_permutation len_pop s).2 Hall) as (P & s' & HP & Hserved).
  exists P, s'. split; [|done].
  unfold NeighborhoodSelection_do.
  destruct (np_permutation len_pop s) as [p s0]. simpl in *.
  by rewrite Hlen, Nat.eqb_refl.
Qed.
End selection_errors.

(** ** More on the replacement step *)

Section replace_more.
Context {AS : ArgSort} {RS : RandomState} {CO : Collaborators RS}.

Lemma set_pop_same (st : State) : set_pop st (pop st) = st.
Proof. by destruct st. Qed.

Lemma np_where_nil (mask : list bool) :
  (∀ j, mask !! j ≠ Some true) → np_where mask = [].
Proof.
  intros Hno. apply elem_of_nil_inv. intros j Hj%np_where_elem.
  by apply (Hno j).
Qed.

(** The outcome of a successful [_replace], slot by slot: a slot of the
    row whose incumbent the offspring beats refers to the offspring;
    every other slot keeps its reference. *)
Lemma MOEAD_replace_slots (self : MOEAD) (st st' : State) (i : nat) (off : loc) :
  MOEAD_replace self st i off = Ok st' →
  ∃ N off_F,
    neighbors self !! i = Some N ∧
    get_F (heap st) off = Ok off_F ∧
    Forall (readable self st) N ∧
    st' = set_pop st (pop st') ∧
    length (pop st') = length (pop st) ∧
    ∀ n, (pop st' !! n = Some off ∧ n ∈ N ∧ beats self st off n) ∨
         (pop st' !! n = pop st !! n ∧ ¬ (n ∈ N ∧ beats self st off n)).
Proof.
  intros (N & popN & FN & WN & off_F & NI & HN & HpopN & HFN & HWN & HoffF
          & HNI & ->)%MOEAD_replace_inv.
  pose proof (written_slots N _ NI HNI) as Hmem.
  assert (Hpos : ∀ j n, N !! j = Some n →
            ∃ inc f w, pop st !! n = Some inc ∧ get_F (heap st) inc = Ok f ∧
                       ref_dirs self !! n = Some w ∧
                       better_mask st off_F FN WN !! j =
                         Some (Qltb (_decomposition st off_F w (ideal st))
                                    (_decomposition st f w (ideal st)))).
  { intros j n HNj.
    destruct (Forall2_lookup_l _ _ _ _ _ HpopN HNj) as (inc & HpopNj & Hinc).
    destruct (Forall2_lookup_l _ _ _ _ _ HFN HpopNj) as (f & HFNj & Hf).
    destruct (Forall2_lookup_l _ _ _ _ _ HWN HNj) as (w & HWNj & Hw).
    exists inc, f, w. repeat split; try done.
    by apply better_mask_lookup. }
  exists N, off_F. simpl. split; [done|]. split; [done|]. split.
  { apply Forall_forall. intros n [j HNj]%list_elem_of_lookup.
    destruct (Hpos j n HNj) as (inc & f & w & Hinc & Hf & Hw & _).
    split; [by eexists|by eexists _, _]. }
  split; [done|]. split; [apply assign_slots_length|].
  intros n. destruct (decide (n ∈ NI)) as [Hin|Hnotin].
  - left. apply Hmem in Hin as (j & Hmask & HNj).
    destruct (Hpos j n HNj) as (inc & f & w & Hinc & Hf & Hw & Hmask').
    split; [|split].
    + apply assign_slots_hit; [apply Hmem; eauto|].
      by apply lookup_lt_Some in Hinc.
    + apply list_elem_of_lookup. eauto.
    + exists inc, f, w, off_F. repeat split; try done.
      apply Qltb_lt. congruence.
  - right. split; [by apply assign_slots_other|].
    intros [[j HNj]%list_elem_of_lookup
            (inc & f & w & off_F' & Hinc & Hf & Hw & HoffF' & Hlt)].
    apply Hnotin, Hmem. exists j. split; [|done].
    destruct (Hpos j n HNj) as (inc' & f' & w' & Hinc' & Hf' & Hw' & ->).
    f_equal. apply Qltb_lt.
    assert (inc' = inc) as -> by congruence.
    assert (f' = f) as -> by congruence.
    assert (w' = w) as -> by congruence.
    assert (off_F' = off_F) as -> by congruence. done.
Qed.

(** X6. A successful [_replace(i, off)] changes nothing but population
    slots of row [i]: the store, the ideal point, the decomposition and
    the population size are the same, and every slot either keeps its
    reference or is a slot of the row that now refers to the offspring. *)
Theorem MOEAD_replace_only_row_slots (self : MOEAD) (st st' : State) (i : nat)
    (off : loc) :
  MOEAD_replace self st i off = Ok st' →
  heap st' = heap st ∧ ideal st' = ideal st ∧
  _decomposition st' = _decomposition st ∧
  length (pop st') = length (pop st) ∧
  ∀ n, pop st' !! n = pop st !! n ∨
       (pop st' !! n = Some off ∧
        ∃ N, neighbors self !! i = Some N ∧ n ∈ N).
Proof.
  intros (N & off_F & HN & _ & _ & Hst' & Hlen & Hslots)%MOEAD_replace_slots.
  rewrite Hst'. simpl. repeat split; try done.
  intros n. destruct (Hslots n) as [(Hoff & Hn & _)|[Hsame _]].
  - right. split; [done|]. by exists N.
  - by left.
Qed.

(** X7. A successful [_replace] never worsens a subproblem: the
    scalarized value of the individual in any slot, under the weight
    vector of the slot and the current ideal point, is afterwards at
    most what it was. *)
Theorem MOEAD_replace_never_worsens (self : MOEAD) (st st' : State) (i : nat)
    (off : loc) (n : nat) (inc inc' : loc) (f f' w : list Q) :
  MOEAD_replace self st i off = Ok st' →
  pop st !! n = Some inc → pop st' !! n = Some inc' →
  get_F (heap st) inc = Ok f → get_F (heap st') inc' = Ok f' →
  ref_dirs self !! n = Some w →
  (_decomposition st' f' w (ideal st') <= _decomposition st f w (ideal st))%Q.
Proof.
  intros (N & off_F & HN & HoffF & _ & Hst' & _ & Hslots)%MOEAD_replace_slots
         Hinc Hinc' Hf Hf' Hw.
  rewrite Hst' in Hf' |- *. simpl in *.
  destruct (Hslots n)
    as [(Hoff & _ & inc0 & f0 & w0 & off_F0 & ? & ? & ? & ? & Hlt)|[Hsame _]].
  - assert (inc' = off) as -> by congruence.
    assert (f' = off_F ∧ inc0 = inc ∧ w0 = w ∧ off_F0 = off_F)
      as (-> & -> & -> & ->) by (repeat split; congruence).
    assert (f0 = f) as -> by congruence.
    by apply Qlt_le_weak.
  - assert (inc' = inc) as -> by congruence.
    assert (f' = f) as -> by congruence.
    apply Qle_refl.
Qed.

(** X8. [_replace] is idempotent: running it again with the same
    offspring returns the same state (the offspring does not beat
    itself, nor any incumbent it did not beat the first time). *)
Theorem MOEAD_replace_idempotent (self : MOEAD) (st st' : State) (i : nat)
    (off : loc) :
  MOEAD_replace self st i off = Ok st' →
  MOEAD_replace self st' i off = Ok st'.
Proof.
  intros (N & off_F & HN & HoffF & Hread & Hst' & Hlen & Hslots)
    %MOEAD_replace_slots.
  assert (Hheap : heap st' = heap st) by (by rewrite Hst').
  assert (Hideal : ideal st' = ideal st) by (by rewrite Hst').
  assert (Hdec : _decomposition st' = _decomposition st) by (by rewrite Hst').
  assert (Hread' : Forall (readable self st') N).
  { eapply Forall_impl; [exact Hread|].
    intros n [Hw (inc & f & Hinc & Hf)]. split; [done|].
    rewrite Hheap.
    destruct (Hslots n) as [(Hoff & _)|[Hsame _]].
    - by exists off, off_F.
    - exists inc, f. split; [congruence|done]. }
  destruct (readable_rows self st' N Hread')
    as (popN & FN & WN & HpopN & HFN & HWN).
  apply MOEAD_replace_inv.
  exists N, popN, FN, WN, off_F, [].
  split; [done|]. split; [done|]. split; [done|]. split; [done|].
  split; [by rewrite Hheap|]. split.
  - rewrite np_where_nil; [constructor|].
    intros j Hj.
    assert (j < length N) as [n HNj]%lookup_lt_is_Some_2.
    { apply lookup_lt_Some in Hj.
      rewrite better_mask_length in Hj
        by (rewrite <- (Forall2_length _ _ _ HFN), <- (Forall2_length _ _ _ HpopN);
            apply (Forall2_length _ _ _ HWN)).
      by rewrite (Forall2_length _ _ _ HWN). }
    destruct (Forall2_lookup_l _ _ _ _ _ HpopN HNj) as (inc' & HpopNj & Hinc').
    destruct (Forall2_lookup_l _ _ _ _ _ HFN HpopNj) as (f' & HFNj & Hf').
    destruct (Forall2_lookup_l _ _ _ _ _ HWN HNj) as (w & HWNj & Hw).
    rewrite (better_mask_lookup st' off_F FN WN j f' w HFNj HWNj) in Hj.
    injection Hj as Hj. rewrite Hideal, Hdec in Hj. rewrite Hheap in Hf'.
    destruct (Hslots n) as [(Hoff & _)|[Hsame Hnot]].
    + assert (inc' = off) as -> by congruence.
      assert (f' = off_F) as -> by congruence.
      by rewrite Qltb_irrefl in Hj.
    + apply Hnot. split; [apply list_elem_of_lookup; eauto|].
      exists inc', f', w, off_F. repeat split; try done; [congruence|].
      by apply Qltb_lt.
  - simpl. by rewrite set_pop_same.
Qed.
End replace_more.

(** ** The batched engine: one ideal point for the whole batch *)

Section batched_order.
Context {RS : RandomState} {CO : Collaborators RS}.

End batched_order.


(** ** More on the neighbor table *)

Section neighbor_table_more.
Context {AS : ArgSort} {ASS : ArgSortSpec AS}.

(** Row [i] of the table is a prefix of the indices sorted by distance
    to direction [i]. *)
Lemma MOEAD_init_row_prefix (dirs : list (list Q)) (n : Z)
    (d : decomposition_option) (p : Q) (self : MOEAD) (i : nat)
    (row : list nat) :
  MOEAD_init dirs n d p = Ok self →
  neighbors self !! i = Some row →
  ∃ q k, row = take k q ∧ q ≡ₚ seq 0 (length dirs) ∧
         StronglySorted (λ a b, dist_le (direction_distance dirs i a)
                                        (direction_distance dirs i b)) q.
Proof.
  intros Hinit Hrow.
  destruct (MOEAD_init_sizes _ _ _ _ _ Hinit) as (_ & Hlen & _).
  destruct (lookup_lt_is_Some_2 dirs i) as [u Hu].
  { apply lookup_lt_Some in Hrow. lia. }
  rewrite (MOEAD_init_row _ _ _ _ _ _ _ Hinit Hu) in Hrow.
  injection Hrow as <-.
  pose proof (argsort_row_perm dirs u) as Hperm.
  destruct (argsort_is_argsort ((λ v, euclidean u v) <$> dirs)) as [_ Hsorted].
  apply Sorted_StronglySorted in Hsorted; [|apply _].
  apply (StronglySorted_ext _
           (λ a b, dist_le (direction_distance dirs i a)
                           (direction_distance dirs i b))) in Hsorted.
  2:{ intros a b. by rewrite !(key_at_cdist_row dirs i _ u Hu). }
  set (q := argsort _) in *.
  unfold py_slice_to. destruct (0 <=? _)%Z; by eexists q, _.
Qed.

(** X9. Whatever [n_neighbors] is, every row of the table built by
    [__init__] lists indices of the population, none of them twice. *)
Theorem neighbors_rows_distinct_indices (dirs : list (list Q)) (n : Z)
    (d : decomposition_option) (p : Q) (self : MOEAD) :
  MOEAD_init dirs n d p = Ok self →
  Forall (λ row, NoDup row ∧ Forall (λ a, a < pop_size self) row)
         (neighbors self).
Proof.
  intros Hinit. apply Forall_forall.
  intros row [i Hrow]%list_elem_of_lookup.
  destruct (MOEAD_init_sizes _ _ _ _ _ Hinit) as (-> & _ & _).
  destruct (MOEAD_init_row_prefix _ _ _ _ _ _ _ Hinit Hrow)
    as (q & k & -> & Hperm & _).
  split.
  - eapply sublist_NoDup; [|apply sublist_take].
    rewrite Hperm. apply NoDup_seq.
  - apply Forall_take, Forall_forall. intros a Ha.
    rewrite Hperm in Ha. apply elem_of_seq in Ha. lia.
Qed.

(** X10. The neighborhood size is clamped to the number of directions:
    with [n_neighbors >= M] the effective size is M and every row is a
    permutation of all M indices. *)
Theorem neighbors_clamped_to_population (dirs : list (list Q)) (n : Z)
    (d : decomposition_option) (p : Q) (self : MOEAD) :
  (Z.of_nat (length dirs) <= n)%Z →
  MOEAD_init dirs n d p = Ok self →
  n_neighbors self = Z.of_nat (length dirs) ∧
  Forall (λ row, row ≡ₚ seq 0 (length dirs)) (neighbors self).
Proof.
  intros Hn Hinit.
  assert (HK : n_neighbors self = Z.of_nat (length dirs)).
  { unfold MOEAD_init in Hinit. injection Hinit as <-. simpl. lia. }
  split; [done|]. apply Forall_forall.
  intros row [i Hrow]%list_elem_of_lookup.
  destruct (MOEAD_init_sizes _ _ _ _ _ Hinit) as (_ & Hlen & _).
  destruct (lookup_lt_is_Some_2 dirs i) as [u Hu].
  { apply lookup_lt_Some in Hrow. lia. }
  rewrite (MOEAD_init_row _ _ _ _ _ _ _ Hinit Hu) in Hrow.
  injection Hrow as <-.
  pose proof (argsort_row_perm dirs u) as Hperm.
  rewrite (py_slice_to_take _ (length dirs)) by lia.
  rewrite take_ge; [done|].
  rewrite (Permutation_length Hperm), length_seq. lia.
Qed.

End neighbor_table_more.

(** ** More on the ideal point *)

Lemma Qmin_le_l (x y : Q) : (x <= y)%Q → Qmin x y = x.
Proof.
  intros Hle. unfold Qmin, GenericMinMax.gmin.
  by destruct (x ?= y)%Q eqn:E.
Qed.

Lemma zip_with_Qmin_below (z r : list Q) :
  length r = length z → Forall2 Qle z r → zip_with Qmin z r = z.
Proof.
  intros _ Hle. induction Hle as [|x y z r Hxy _ IH]; simpl; [done|].
  by rewrite Qmin_le_l, IH.
Qed.

Lemma foldl_Qmin_below (rows : list (list Q)) (z : list Q) :
  Forall (λ r, length r = length z ∧ Forall2 Qle z r) rows →
  foldl (zip_with Qmin) z rows = z.
Proof.
  induction 1 as [|r rows [Hlen Hle] _ IH]; simpl; [done|].
  by rewrite zip_with_Qmin_below.
Qed.

(** X12. Observing the same objective vectors a second time does not
    move the ideal point. *)
Theorem ideal_update_idempotent (z z' : list Q) (rows : list (list Q)) :
  ideal_update z rows = Ok z' → ideal_update z' rows = Ok z'.
Proof.
  intros Hup. pose proof (ideal_update_min _ _ _ Hup) as [Hlen Hmin].
  apply ideal_update_Ok in Hup as [Hall _].
  assert (Hbelow : Forall (λ r, length r = length z' ∧ Forall2 Qle z' r) rows).
  { apply Forall_forall. intros r Hr.
    rewrite Forall_forall in Hall. specialize (Hall r Hr).
    split; [lia|]. apply Forall2_same_length_lookup_2; [lia|].
    intros k m rk Hm Hrk.
    destruct (lookup_lt_is_Some_2 z k) as [zk Hzk].
    { apply lookup_lt_Some in Hm. lia. }
    destruct (Hmin k zk Hzk) as (m' & Hm' & _ & Hrows & _).
    assert (m' = m) as -> by congruence. by eapply Hrows. }
  rewrite ideal_update_total.
  - by rewrite foldl_Qmin_below.
  - eapply Forall_impl; [exact Hbelow|]. by intros r [? _].
Qed.

(** X13. The update with a whole batch is the chain of the updates with
    its vectors one at a time, in any grouping: updating with [rows1]
    and then with [rows2] is updating with [rows1 ++ rows2]. *)
Theorem ideal_update_app (z z' : list Q) (rows1 rows2 : list (list Q)) :
  ideal_update z (rows1 ++ rows2) = Ok z' ↔
  ∃ z1, ideal_update z rows1 = Ok z1 ∧ ideal_update z1 rows2 = Ok z'.
Proof.
  split.
  - intros [Hall ->]%ideal_update_Ok.
    apply Forall_app in Hall as [Hall1 Hall2].
    exists (foldl (zip_with Qmin) z rows1).
    split; [by apply ideal_update_total|].
    rewrite foldl_app. apply ideal_update_total.
    destruct (foldl_Qmin_spec rows1 z Hall1) as [Hlen _].
    eapply Forall_impl; [exact Hall2|]. simpl. intros r Hr. lia.
  - intros (z1 & H1 & H2).
    pose proof (ideal_update_min _ _ _ H1) as [Hlen _].
    apply ideal_update_Ok in H1 as [Hall1 ->].
    apply ideal_update_Ok in H2 as [Hall2 ->].
    rewrite <- foldl_app. apply ideal_update_total.
    apply Forall_app. split; [done|].
    eapply Forall_impl; [exact Hall2|]. simpl. intros r Hr. lia.
Qed.

(** X14. On a non-empty population of evaluated individuals whose
    objective vectors have one width, with a decomposition that the
    factory resolves (or an instance), [_post_initialize] returns: the
    population and the store are the ones given, the decomposition is
    the resolved one, and the ideal point is the coordinate-wise minimum
    of the objective vectors of the population. *)
Theorem MOEAD_post_initialize_ideal {RS : RandomState}
    {CO : Collaborators RS} (self : MOEAD) (problem : Problem)
    (p : list loc) (h : gmap loc Individual) (r : list Q)
    (rs : list (list Q)) (d : Decomposition) :
  Population_get_F h p = Ok (r :: rs) →
  Forall (λ r', length r' = length r) rs →
  match decomposition self with
  | ByName name => get_decomposition (decomposition_name name problem)
  | ByInstance d0 => Ok d0
  end = Ok d →
  ∃ st,
    MOEAD_post_initialize self problem p h = Ok st ∧
    pop st = p ∧ heap st = h ∧ _decomposition st = d ∧
    is_coordinatewise_min r rs (ideal st).
Proof.
  intros Hrows Hall Hd.
  assert (Hstack : vstack (r :: rs) = Ok (r :: rs)).
  { apply vstack_Ok. split; [done|]. by exists r, rs. }
  exists {| pop := p; heap := h; ideal := foldl (zip_with Qmin) r rs;
            _decomposition := d |}.
  split; [|simpl; repeat split; try done; by apply foldl_Qmin_spec].
  unfold MOEAD_post_initialize.
  apply bind_Ok. exists (r :: rs). split; [done|].
  apply bind_Ok. exists (r :: rs). split; [done|].
  apply bind_Ok. eexists. split; [reflexivity|].
  apply bind_Ok. exists d. by split.
Qed.

(** ** What a generation does to the individuals *)

Lemma get_F_weaken (h h' : gmap loc Individual) (l : loc) (f : list Q) :
  h ⊆ h' → get_F h l = Ok f → get_F h' l = Ok f.
Proof.
  unfold get_F. intros Hsub H.
  apply bind_Ok in H as (ind & Hind%or_raise_Ok & HF).
  by rewrite (lookup_weaken _ _ _ _ Hind Hsub).
Qed.

Lemma alloc_spec (h h' : gmap loc Individual) (ind : Individual) (l : loc) :
  alloc h ind = (l, h') →
  h !! l = None ∧ h' = <[l := ind]> h ∧ h ⊆ h' ∧ size h' = S (size h).
Proof.
  unfold alloc. intros [= <- <-].
  assert (Hfresh : h !! fresh (dom h) = None).
  { apply not_elem_of_dom, is_fresh. }
  split; [done|]. split; [done|]. split; [by apply insert_subseteq|].
  by apply map_size_insert_None.
Qed.

Lemma alloc_all_spec (inds : list Individual) (h h' : gmap loc Individual)
    (ls : list loc) :
  alloc_all h inds = (ls, h') →
  h ⊆ h' ∧ NoDup ls ∧ Forall (λ l, h !! l = None) ls ∧
  Forall2 (λ l ind, h' !! l = Some ind) ls inds ∧
  size h' = size h + length inds.
Proof.
  revert h h' ls. induction inds as [|ind inds IH]; intros h h' ls H;
    cbn [alloc_all] in H.
  - injection H as <- <-.
    split; [done|]. split; [constructor|]. split; [constructor|].
    split; [constructor|simpl; lia].
  - destruct (alloc h ind) as [l h1] eqn:Ealloc.
    destruct (alloc_all h1 inds) as [ls' h2] eqn:Eall.
    injection H as <- <-.
    destruct (alloc_spec _ _ _ _ Ealloc) as (Hl & -> & Hsub1 & Hsize1).
    destruct (IH _ _ _ Eall) as (Hsub2 & Hnd & Hfresh & Hlook & Hsize2).
    assert (Hl1 : <[l:=ind]> h !! l = Some ind) by apply lookup_insert_eq.
    split; [by etrans|]. split; [|split; [|split]].
    + constructor; [|done]. intros Hin.
      rewrite Forall_forall in Hfresh. specialize (Hfresh l Hin). congruence.
    + constructor; [done|].
      eapply Forall_impl; [exact Hfresh|]. intros l' Hl'. simpl in Hl'.
      by eapply lookup_weaken_None.
    + constructor; [|done]. by eapply lookup_weaken.
    + simpl. lia.
Qed.

Lemma keeps_individuals_refl (st : State) : keeps_individuals st st.
Proof. repeat split; [done|by left|done]. Qed.

Lemma keeps_individuals_trans (st st1 st' : State) :
  keeps_individuals st st1 → keeps_individuals st1 st' →
  keeps_individuals st st'.
Proof.
  intros (Hsub1 & Hslot1 & Hev1) (Hsub2 & Hslot2 & Hev2).
  split; [by etrans|]. split; [|auto].
  intros n l Hl. destruct (Hslot2 n l Hl) as [Hl1|Hnew].
  - by apply Hslot1.
  - right. by eapply lookup_weaken_None.
Qed.

Section individuals.
Context {RS : RandomState} {CO : Collaborators RS}.

Lemma MOEAD_offspring_inv (self : MOEAD) (st st1 : State) (i : nat)
    (s s1 : rng) (off : loc) :
  MOEAD_offspring self st i s = Ok (off, st1, s1) →
  heap st !! off = None ∧
  (∃ x tag, heap st1 = <[off := {| X := x; F := Some (evaluate x);
                                   attr_i := tag |}]> (heap st)) ∧
  pop st1 = pop st.
Proof.
  unfold MOEAD_offspring. intros H.
  apply bind_Ok in H as ([P s2] & _ & H).
  apply bind_Ok in H as ([offs s3] & _ & H).
  apply bind_Ok in H as (o & _ & H).
  destruct (alloc _ _) as [l h'] eqn:Ealloc. injection H as <- <- <-.
  destruct (alloc_spec _ _ _ _ Ealloc) as (Hl & -> & _).
  split; [done|]. split; [by eexists _, _|done].
Qed.

(** A successful [_replace] keeps the store, leaves in every slot its
    reference or the offspring, and keeps the slots evaluated. *)
Lemma MOEAD_replace_keeps (self : MOEAD) (st st' : State) (i : nat) (off : loc) :
  MOEAD_replace self st i off = Ok st' →
  heap st' = heap st ∧
  (∀ n l, pop st' !! n = Some l → pop st !! n = Some l ∨ l = off) ∧
  (all_evaluated st → all_evaluated st').
Proof.
  intros (N & off_F & _ & HoffF & _ & Hst' & Hlen & Hslots)%MOEAD_replace_slots.
  assert (Hheap : heap st' = heap st) by (by rewrite Hst').
  split; [done|]. split.
  - intros n l Hl. destruct (Hslots n) as [(Hoff & _)|[Hsame _]].
    + right. congruence.
    + left. congruence.
  - unfold all_evaluated. rewrite Hheap, !Forall_lookup. intros Hev n l Hl.
    destruct (Hslots n) as [(Hoff & _)|[Hsame _]].
    + assert (l = off) as -> by congruence. by exists off_F.
    + apply (Hev n). congruence.
Qed.

Lemma MOEAD_advance_one_keeps (self : MOEAD) (st st' : State) (i : nat)
    (s s' : rng) :
  MOEAD_advance_one self st i s = Ok (st', s') →
  keeps_individuals st st' ∧ size (heap st') = S (size (heap st)).
Proof.
  intros (off & st1 & off_F & z & Hoff & HF & _ & Hrep)%MOEAD_advance_one_inv.
  destruct (MOEAD_offspring_inv _ _ _ _ _ _ _ Hoff)
    as (Hfresh & (x & tag & Hheap1) & Hpop1).
  destruct (MOEAD_replace_keeps _ _ _ _ _ Hrep) as (Hheap & Hslots & Hev).
  simpl in *.
  assert (Hsub : heap st ⊆ heap st1).
  { rewrite Hheap1. by apply insert_subseteq. }
  split; [split; [|split]|].
  - by rewrite Hheap.
  - intros n l Hl. destruct (Hslots n l Hl) as [Hold| ->].
    + left. congruence.
    + by right.
  - intros Hall. apply Hev. unfold all_evaluated in *. simpl.
    rewrite Hpop1. eapply Forall_impl; [exact Hall|].
    intros l [f Hf]. exists f. by eapply get_F_weaken.
  - rewrite Hheap, Hheap1. by apply map_size_insert_None.
Qed.

Lemma MOEAD_advance_loop_keeps (self : MOEAD) (order : list nat)
    (st st' : State) (s s' : rng) :
  MOEAD_advance_loop self st order s = Ok (st', s') →
  keeps_individuals st st' ∧
  size (heap st') = size (heap st) + length order.
Proof.
  revert st s. induction order as [|i order IH]; intros st s H; simpl in H.
  - injection H as <- <-. split; [apply keeps_individuals_refl|].
    cbn [length]. lia.
  - apply bind_Ok in H as ([st1 s1] & Hone & H).
    destruct (MOEAD_advance_one_keeps _ _ _ _ _ _ Hone) as [Hk1 Hsize1].
    destruct (IH _ _ H) as [Hk2 Hsize2].
    split; [by eapply keeps_individuals_trans|].
    rewrite Hsize2, Hsize1. cbn [length]. lia.
Qed.
End individuals.

Section batched_individuals.
Context {RS : RandomState} {CO : Collaborators RS}.

(** What the evaluation of a batch leaves in the store. *)
Lemma evaluate_all_lookup (ls : list loc) (h : gmap loc Individual) (l : loc) :
  evaluate_all h ls !! l =
    (λ ind, if decide (l ∈ ls)
            then {| X := X ind; F := Some (evaluate (X ind));
                    attr_i := attr_i ind |}
            else ind) <$> h !! l.
Proof.
  unfold evaluate_all. revert h.
  induction ls as [|a ls IH]; intros h; simpl.
  - by destruct (h !! l).
  - rewrite IH. destruct (decide (l = a)) as [->|Hne].
    + rewrite lookup_alter_eq. destruct (h !! a) as [ind|]; simpl; [|done].
      destruct (decide (a ∈ ls)); destruct (decide (a ∈ a :: ls)) as [_|Hn];
        try done; exfalso; apply Hn, elem_of_cons; by left.
    + rewrite lookup_alter_ne by done.
      destruct (h !! l) as [ind|]; simpl; [|done].
      destruct (decide (l ∈ ls)) as [Hin|Hnotin];
        destruct (decide (l ∈ a :: ls)) as [Hin'|Hnotin']; try done.
      * exfalso. apply Hnotin', elem_of_cons. by right.
      * apply elem_of_cons in Hin' as [?|?]; done.
Qed.

Lemma evaluate_all_size (ls : list loc) (h : gmap loc Individual) :
  size (evaluate_all h ls) = size h.
Proof.
  rewrite <- !size_dom. f_equal.
  unfold evaluate_all. revert h.
  induction ls as [|a ls IH]; intros h; simpl; [done|].
  by rewrite IH, dom_alter_L.
Qed.

Lemma Population_set_i_Ok (offs offs' : list Individual) (values : list nat) :
  Population_set_i offs values = Ok offs' →
  length values = length offs ∧ length offs' = length offs ∧
  ∀ k ind', offs' !! k = Some ind' →
    ∃ ind j, offs !! k = Some ind ∧ values !! k = Some j ∧
             attr_i ind' = Some j ∧ X ind' = X ind.
Proof.
  unfold Population_set_i.
  destruct (Nat.eqb_spec (length values) (length offs)) as [Hlen|]; [|done].
  simpl. intros [= <-]. split; [done|].
  split; [rewrite length_zip_with; lia|].
  intros k ind' Hk. apply lookup_zip_with_Some in Hk as (ind & j & -> & ? & ?).
  by exists ind, j.
Qed.

Lemma NeighborhoodSelection_do_anchors (neighbors : list (list nat)) (prob : Q)
    (len_pop n_select n_par : nat) (k : list nat) (s s' : rng)
    (P : list (list nat)) :
  NeighborhoodSelection_do neighbors prob len_pop n_select n_par (Some k) s
    = Ok (P, s') →
  length k = n_select.
Proof.
  unfold NeighborhoodSelection_do.
  by destruct (Nat.eqb_spec (length k) n_select).
Qed.

(** The outcome of a successful [_infill]. *)
Lemma ParallelMOEAD_infill_inv (self : MOEAD) (st st1 : State) (s s1 : rng)
    (infills : list loc) :
  ParallelMOEAD_infill self st s = Ok (infills, st1, s1) →
  let order := (np_permutation (length (pop st)) s).1 in
  ∃ offs,
    length order = pop_size self ∧
    length offs = length order ∧
    (∀ k ind, offs !! k = Some ind → attr_i ind = order !! k) ∧
    alloc_all (heap st) offs = (infills, heap st1) ∧
    pop st1 = pop st ∧ ideal st1 = ideal st ∧
    _decomposition st1 = _decomposition st.
Proof.
  unfold ParallelMOEAD_infill. intros H. simpl.
  destruct (np_permutation _ s) as [order s0]. simpl.
  apply bind_Ok in H as ([P s2] & Hsel & H).
  apply bind_Ok in H as ([offs s3] & _ & H).
  apply bind_Ok in H as (offs1 & _ & H).
  apply bind_Ok in H as (offs2 & Hset & H).
  destruct (alloc_all _ offs2) as [ls h'] eqn:Eall. injection H as <- <- <-.
  apply NeighborhoodSelection_do_anchors in Hsel.
  apply Population_set_i_Ok in Hset as (Hlen1 & Hlen2 & Htags).
  exists offs2. simpl. split; [done|]. split; [lia|]. split; [|done].
  intros k ind Hk. destruct (Htags k ind Hk) as (? & j & _ & -> & -> & _). done.
Qed.

Lemma ParallelMOEAD_replace_loop_keeps (self : MOEAD) (infills : list loc)
    (st st' : State) :
  foldM (ParallelMOEAD_replace self) st infills = Ok st' →
  heap st' = heap st ∧
  (∀ n l, pop st' !! n = Some l → pop st !! n = Some l ∨ l ∈ infills) ∧
  (all_evaluated st → all_evaluated st').
Proof.
  revert st. induction infills as [|off infills IH]; intros st H; simpl in H.
  - injection H as <-. split; [done|]. split; [by left|done].
  - apply bind_Ok in H as (st1 & Hone & H).
    unfold ParallelMOEAD_replace in Hone.
    apply bind_Ok in Hone as (ind & _ & Hone).
    apply bind_Ok in Hone as (i & _ & Hone).
    destruct (MOEAD_replace_keeps _ _ _ _ _ Hone) as (Hheap1 & Hslots1 & Hev1).
    destruct (IH _ H) as (Hheap2 & Hslots2 & Hev2).
    split; [congruence|]. split; [|auto].
    intros n l Hl. destruct (Hslots2 n l Hl) as [Hl1|Hin].
    + destruct (Hslots1 n l Hl1) as [Hold| ->]; [by left|].
      right. apply elem_of_cons. by left.
    + right. apply elem_of_cons. by right.
Qed.

Lemma ParallelMOEAD_replace_loop_tagged (self : MOEAD) (infills : list loc)
    (st st' : State) :
  foldM (ParallelMOEAD_replace self) st infills = Ok st' →
  Forall (λ off, ∃ ind i, heap st !! off = Some ind ∧ attr_i ind = Some i)
         infills.
Proof.
  revert st. induction infills as [|off infills IH]; intros st H; simpl in H.
  - constructor.
  - apply bind_Ok in H as (st1 & Hone & H).
    pose proof (ParallelMOEAD_replace_frame _ _ _ _ Hone) as (Hheap & _).
    unfold ParallelMOEAD_replace in Hone.
    apply bind_Ok in Hone as (ind & Hind%or_raise_Ok & Hone).
    apply bind_Ok in Hone as (i & Hi%or_raise_Ok & Hone).
    constructor; [by exists ind, i|].
    rewrite <- Hheap. by apply IH.
Qed.

Lemma ParallelMOEAD_advance_tagged (self : MOEAD) (st st' : State)
    (infills : list loc) :
  ParallelMOEAD_advance self st infills = Ok st' →
  Forall (λ off, ∃ ind i, heap st !! off = Some ind ∧ attr_i ind = Some i)
         infills.
Proof.
  intros (rows & z & _ & _ & Hloop)%ParallelMOEAD_advance_inv.
  by apply ParallelMOEAD_replace_loop_tagged in Hloop.
Qed.

Lemma ParallelMOEAD_generation_keeps (self : MOEAD) (st st' : State)
    (s s' : rng) :
  ParallelMOEAD_generation self st s = Ok (st', s') →
  keeps_individuals st st' ∧
  size (heap st') =
    size (heap st) + length (np_permutation (length (pop st)) s).1.
Proof.
  unfold ParallelMOEAD_generation. intros H.
  apply bind_Ok in H as ([[infills st1] s1] & Hinfill & H).
  apply bind_Ok in H as (st2 & Hadv & [= <- <-]).
  apply ParallelMOEAD_infill_inv in Hinfill
    as (offs & Hlen1 & Hlen2 & _ & Hall & Hpop1 & _ & _).
  destruct (alloc_all_spec _ _ _ _ Hall) as (Hsub & _ & Hfresh & _ & Hsize).
  apply ParallelMOEAD_advance_inv in Hadv as (rows & z & _ & _ & Hloop).
  destruct (ParallelMOEAD_replace_loop_keeps _ _ _ _ Hloop)
    as (Hheap & Hslots & Hev).
  simpl in *.
  assert (Hsub2 : heap st ⊆ evaluate_all (heap st1) infills).
  { apply map_subseteq_spec. intros l x Hl.
    rewrite evaluate_all_lookup, (lookup_weaken _ _ _ _ Hl Hsub). simpl.
    rewrite decide_False; [done|]. intros Hin.
    rewrite Forall_forall in Hfresh. specialize (Hfresh l Hin). congruence. }
  split; [split; [|split]|].
  - by rewrite Hheap.
  - intros n l Hl. destruct (Hslots n l Hl) as [Hold|Hin].
    + left. congruence.
    + right. rewrite Forall_forall in Hfresh. by apply Hfresh.
  - intros Hall0. apply Hev. unfold all_evaluated in *. simpl.
    rewrite Hpop1. eapply Forall_impl; [exact Hall0|].
    intros l [f Hf]. exists f. by eapply get_F_weaken.
  - rewrite Hheap, evaluate_all_size, Hsize. lia.
Qed.
End batched_individuals.

Section generation_properties.
Context {RS : RandomState} {RSS : RandomStateSpec RS} {CO : Collaborators RS}.

(** X15. A generation of either engine keeps the individuals: every
    object of the store is still there and unchanged, every population
    slot refers to the individual it referred to or to one created
    during the generation, and a population of evaluated individuals
    stays one. *)
Theorem generation_keeps_individuals (e : engine) (self : MOEAD)
    (st st' : State) (s s' : rng) :
  generation e self st s = Ok (st', s') →
  keeps_individuals st st'.
Proof.
  destruct e; simpl.
  - unfold MOEAD_advance. destruct (np_permutation _ s) as [order s0].
    intros H. by apply MOEAD_advance_loop_keeps in H as [? _].
  - intros H. by apply ParallelMOEAD_generation_keeps in H as [? _].
Qed.

(** X16. A generation of either engine creates exactly one new
    individual per subproblem: the store grows by the size of the
    population. *)
Theorem generation_creates_one_individual_per_slot (e : engine)
    (self : MOEAD) (st st' : State) (s s' : rng) :
  generation e self st s = Ok (st', s') →
  size (heap st') = size (heap st) + length (pop st).
Proof.
  pose proof (np_permutation_length (length (pop st)) s) as Hlen.
  destruct e; simpl.
  - unfold MOEAD_advance. destruct (np_permutation _ s) as [order s0].
    intros H. apply MOEAD_advance_loop_keeps in H as [_ ->]. simpl in Hlen. lia.
  - intros H. apply ParallelMOEAD_generation_keeps in H as [_ ->]. lia.
Qed.

(** X17. On an empty population [MOEAD._advance] visits no index and
    returns the state as it is. *)
Theorem MOEAD_advance_empty_population (self : MOEAD) (st : State) (s : rng) :
  pop st = [] →
  MOEAD_advance self st s = Ok (st, (np_permutation 0 s).2).
Proof.
  intros Hpop. unfold MOEAD_advance. rewrite Hpop. simpl.
  pose proof (np_permutation_length 0 s) as Hlen.
  destruct (np_permutation 0 s) as [order s0]. simpl in *.
  by destruct order.
Qed.

(** X18. A successful [_infill] leaves the population and the ideal
    point as they are and returns one new individual per subproblem:
    the offspring are distinct objects that did not exist before, there
    are as many as individuals, and their attributes ["i"] are, in
    order, a permutation of the population indices. *)
Theorem ParallelMOEAD_infill_one_offspring_per_anchor (self : MOEAD)
    (st st1 : State) (s s1 : rng) (infills : list loc) :
  ParallelMOEAD_infill self st s = Ok (infills, st1, s1) →
  pop st1 = pop st ∧ ideal st1 = ideal st ∧
  heap st ⊆ heap st1 ∧
  NoDup infills ∧ Forall (λ l, heap st !! l = None) infills ∧
  length infills = length (pop st) ∧
  length (pop st) = pop_size self ∧
  ∃ order, order ≡ₚ seq 0 (length (pop st)) ∧
           Forall2 (λ l j, ∃ ind, heap st1 !! l = Some ind ∧
                                  attr_i ind = Some j) infills order.
Proof.
  intros (offs & Hlen1 & Hlen2 & Htags & Hall & Hpop & Hideal & _)
    %ParallelMOEAD_infill_inv.
  pose proof (np_permutation_perm (length (pop st)) s) as Hperm.
  pose proof (np_permutation_length (length (pop st)) s) as Hlen.
  set (order := (np_permutation (length (pop st)) s).1) in *.
  destruct (alloc_all_spec _ _ _ _ Hall) as (Hsub & Hnd & Hfresh & Hlook & _).
  pose proof (Forall2_length _ _ _ Hlook) as Hlen3.
  repeat split; try done; try lia.
  exists order. split; [done|].
  apply Forall2_same_length_lookup_2; [lia|].
  intros k l j Hl Hj.
  destruct (Forall2_lookup_l _ _ _ _ _ Hlook Hl) as (ind & Hind & Hheap).
  exists ind. split; [done|]. rewrite (Htags k ind Hind). done.
Qed.

(** X19. [_infill] needs a population of [pop_size] individuals: with
    any other population length the assertion of the selection fails
    (one anchor per individual is drawn, [pop_size] are expected). *)
Theorem ParallelMOEAD_infill_size_mismatch (self : MOEAD) (st : State)
    (s : rng) :
  length (pop st) ≠ pop_size self →
  ParallelMOEAD_infill self st s = Raise AssertionError.
Proof.
  intros Hne. unfold ParallelMOEAD_infill.
  pose proof (np_permutation_length (length (pop st)) s) as Hlen.
  destruct (np_permutation _ s) as [order s0]. simpl in Hlen.
  unfold NeighborhoodSelection_do.
  destruct (Nat.eqb_spec (length order) (pop_size self)) as [?|_]; [lia|].
  done.
Qed.
End generation_properties.

Section batched_advance.
Context {RS : RandomState} {CO : Collaborators RS}.

(** X20. A successful [ParallelMOEAD._advance] creates and changes no
    individual and keeps the population size; every infill was evaluated
    and carries an attribute ["i"]; afterwards every slot refers to the
    individual it referred to or to one of the infills. *)
Theorem ParallelMOEAD_advance_slots (self : MOEAD) (st st' : State)
    (infills : list loc) :
  ParallelMOEAD_advance self st infills = Ok st' →
  heap st' = heap st ∧
  length (pop st') = length (pop st) ∧
  Forall (λ off, ∃ f ind i, get_F (heap st) off = Ok f ∧
                            heap st !! off = Some ind ∧
                            attr_i ind = Some i) infills ∧
  ∀ n l, pop st' !! n = Some l → pop st !! n = Some l ∨ l ∈ infills.
Proof.
  intros Hadv.
  pose proof (ParallelMOEAD_advance_tagged _ _ _ _ Hadv) as Htag.
  apply ParallelMOEAD_advance_inv in Hadv as (rows & z & Hrows & _ & Hloop).
  destruct (ParallelMOEAD_replace_loop_keeps _ _ _ _ Hloop)
    as (Hheap & Hslots & _).
  destruct (ParallelMOEAD_replace_loop_frame _ _ _ _ Hloop) as (_ & _ & _ & Hlen).
  simpl in *. repeat split; try done.
  apply traverse_Ok in Hrows.
  apply Forall_forall. intros off Hoff.
  apply list_elem_of_lookup in Hoff as [k Hk].
  destruct (Forall2_lookup_l _ _ _ _ _ Hrows Hk) as (f & _ & Hf).
  rewrite Forall_forall in Htag.
  destruct (Htag off) as (ind & i & Hind & Hi).
  { apply list_elem_of_lookup. eauto. }
  by exists f, ind, i.
Qed.
End batched_advance.

(** ** The further properties at concrete inputs *)

Lemma NeighborhoodSelection_do_too_many_anchors_witness :
  NeighborhoodSelection_do (neighbors alg5) (9 # 10) 5 6 2 None 0
    = Raise AssertionError.
Proof.
  apply (NeighborhoodSelection_do_too_many_anchors (RSS := counter_rng_spec)
           (neighbors alg5) (9 # 10)%Q 5 6 2 0).
  lia.
Defined.

Lemma select_row_neighbors_errors_witness :
  (neighbors alg5 !! 7 = None →
     select_row (neighbors alg5) (9 # 10) 5 4 7 0 = Raise IndexError) ∧
  (∀ Nj, neighbors alg5 !! 7 = Some Nj → length Nj < 4 →
     select_row (neighbors alg5) (9 # 10) 5 4 7 0 = Raise ValueError).
Proof.
  apply (select_row_neighbors_errors (RS := counter_rng)
           (neighbors alg5) (9 # 10)%Q 5 4 7 0).
  reflexivity.
Defined.

Lemma select_row_population_too_small_witness :
  select_row [[0; 1]] 0 2 3 0 0 =
    if decide (2 = 1)
    then Ok (replicate 3 0, (np_permutation 2 (np_random 0).2).2)
    else Raise ValueError.
Proof.
  apply (select_row_population_too_small (RSS := counter_rng_spec)
           [[0; 1]] 0%Q 2 3 0 0).
  - reflexivity.
  - lia.
Defined.

Lemma alg5_requests_ok (j : nat) :
  j < 5 → request_ok (neighbors alg5) 5 2 j.
Proof.
  intros Hj. split; [lia|].
  do 5 (destruct j as [|j];
          [eexists; split; [reflexivity|split; [compute_done|simpl; lia]]|]).
  lia.
Qed.

Lemma NeighborhoodSelection_do_random_anchors_witness :
  ∃ P s',
    NeighborhoodSelection_do (neighbors alg5) (9 # 10) 5 3 2 None 0
      = Ok (P, s') ∧
    let k := take 3 (np_permutation 5 0).1 in
    length k = 3 ∧ NoDup k ∧
    requests_served (neighbors alg5) (9 # 10) 5 2 k (np_permutation 5 0).2 P s'.
Proof.
  apply (NeighborhoodSelection_do_random_anchors (RSS := counter_rng_spec)
           (neighbors alg5) (9 # 10)%Q 5 3 2 0).
  - lia.
  - exact alg5_requests_ok.
Defined.

Lemma st6_replaced_eq : MOEAD_replace alg5 st6 2 6%positive = Ok st6_replaced.
Proof. vm_compute. reflexivity. Qed.

Lemma MOEAD_replace_only_row_slots_witness :
  heap st6_replaced = heap st6 ∧ ideal st6_replaced = ideal st6 ∧
  _decomposition st6_replaced = _decomposition st6 ∧
  length (pop st6_replaced) = length (pop st6) ∧
  ∀ n, pop st6_replaced !! n = pop st6 !! n ∨
       (pop st6_replaced !! n = Some 6%positive ∧
        ∃ N, neighbors alg5 !! 2 = Some N ∧ n ∈ N).
Proof.
  exact (MOEAD_replace_only_row_slots alg5 st6 st6_replaced 2 6%positive
           st6_replaced_eq).
Defined.

Lemma MOEAD_replace_never_worsens_witness :
  (_decomposition st6_replaced [1 # 10; 1 # 10] [1 # 4; 3 # 4]
     (ideal st6_replaced)
   <= _decomposition st6 [3 # 10; 8 # 10] [1 # 4; 3 # 4] (ideal st6))%Q.
Proof.
  apply (MOEAD_replace_never_worsens alg5 st6 st6_replaced 2 6%positive 1
           2%positive 6%positive [3 # 10; 8 # 10]%Q [1 # 10; 1 # 10]%Q
           [1 # 4; 3 # 4]%Q st6_replaced_eq); reflexivity.
Defined.

Lemma MOEAD_replace_idempotent_witness :
  MOEAD_replace alg5 st6_replaced 2 6%positive = Ok st6_replaced.
Proof.
  exact (MOEAD_replace_idempotent alg5 st6 st6_replaced 2 6%positive
           st6_replaced_eq).
Defined.

Lemma neighbors_rows_distinct_indices_witness :
  Forall (λ row, NoDup row ∧ Forall (λ a, a < pop_size alg5) row)
         (neighbors alg5).
Proof.
  apply (neighbors_rows_distinct_indices (ASS := argsort_merge_spec)
           dirs5 3 (ByName "auto") (9 # 10)%Q alg5).
  reflexivity.
Defined.

Lemma neighbors_clamped_to_population_witness :
  n_neighbors alg5_all = Z.of_nat (length dirs5) ∧
  Forall (λ row, row ≡ₚ seq 0 (length dirs5)) (neighbors alg5_all).
Proof.
  apply (neighbors_clamped_to_population (ASS := argsort_merge_spec)
           dirs5 20 (ByName "auto") (9 # 10)%Q alg5_all).
  - simpl. lia.
  - reflexivity.
Defined.


Lemma ideal_update_idempotent_witness :
  ideal_update [1; 2]%Q [[3; 2]; [4; 4]]%Q = Ok [1; 2]%Q.
Proof.
  apply (ideal_update_idempotent [1; 5]%Q [1; 2]%Q [[3; 2]; [4; 4]]%Q).
  reflexivity.
Defined.

Lemma MOEAD_post_initialize_ideal_witness :
  ∃ st,
    MOEAD_post_initialize alg5 problem2 pop5 store5 = Ok st ∧
    pop st = pop5 ∧ heap st = store5 ∧ _decomposition st = tchebi ∧
    is_coordinatewise_min [1 # 10; 9 # 10]%Q
      [[3 # 10; 8 # 10]; [5 # 10; 5 # 10]; [8 # 10; 3 # 10];
       [9 # 10; 1 # 10]]%Q (ideal st).
Proof.
  apply (MOEAD_post_initialize_ideal alg5 problem2 pop5 store5).
  - reflexivity.
  - repeat constructor.
  - reflexivity.
Defined.

Lemma gen5_eq : generation Sequential alg5 st5 0 = Ok gen5.
Proof. vm_compute. reflexivity. Qed.

Lemma generation_keeps_individuals_witness :
  keeps_individuals st5 gen5.1.
Proof.
  exact (generation_keeps_individuals (RS := counter_rng) Sequential
           alg5 st5 gen5.1 0 gen5.2 gen5_eq).
Defined.

Lemma generation_creates_one_individual_per_slot_witness :
  size (heap gen5.1) = size (heap st5) + length (pop st5).
Proof.
  exact (generation_creates_one_individual_per_slot
           (RSS := counter_rng_spec) Sequential alg5 st5 gen5.1 0 gen5.2
           gen5_eq).
Defined.

Lemma MOEAD_advance_empty_population_witness :
  MOEAD_advance alg5 (set_pop st5 []) 0
    = Ok (set_pop st5 [], (np_permutation 0 0).2).
Proof.
  apply (MOEAD_advance_empty_population (RSS := counter_rng_spec) alg5
           (set_pop st5 []) 0).
  reflexivity.
Defined.

Lemma infill5_eq : ParallelMOEAD_infill alg5 st5 0 = Ok infill5.
Proof. vm_compute. reflexivity. Qed.

Lemma ParallelMOEAD_infill_one_offspring_per_anchor_witness :
  pop infill5.1.2 = pop st5 ∧ ideal infill5.1.2 = ideal st5 ∧
  heap st5 ⊆ heap infill5.1.2 ∧
  NoDup infill5.1.1 ∧ Forall (λ l, heap st5 !! l = None) infill5.1.1 ∧
  length infill5.1.1 = length (pop st5) ∧
  length (pop st5) = pop_size alg5 ∧
  ∃ order, order ≡ₚ seq 0 (length (pop st5)) ∧
           Forall2 (λ l j, ∃ ind, heap infill5.1.2 !! l = Some ind ∧
                                  attr_i ind = Some j) infill5.1.1 order.
Proof.
  exact (ParallelMOEAD_infill_one_offspring_per_anchor
           (RSS := counter_rng_spec) alg5 st5 infill5.1.2 0 infill5.2
           infill5.1.1 infill5_eq).
Defined.

Lemma ParallelMOEAD_infill_size_mismatch_witness :
  ParallelMOEAD_infill alg5 (set_pop st5 [1; 2; 3; 4]%positive) 0
    = Raise AssertionError.
Proof.
  apply (ParallelMOEAD_infill_size_mismatch (RSS := counter_rng_spec) alg5
           (set_pop st5 [1; 2; 3; 4]%positive) 0).
  simpl. lia.
Defined.

Lemma ParallelMOEAD_advance_slots_witness :
  heap st5_batch_advanced = heap batch5.2 ∧
  length (pop st5_batch_advanced) = length (pop batch5.2) ∧
  Forall (λ off, ∃ f ind i, get_F (heap batch5.2) off = Ok f ∧
                            heap batch5.2 !! off = Some ind ∧
                            attr_i ind = Some i) batch5.1 ∧
  ∀ n l, pop st5_batch_advanced !! n = Some l →
         pop batch5.2 !! n = Some l ∨ l ∈ batch5.1.
Proof.
  apply (ParallelMOEAD_advance_slots alg5 batch5.2 st5_batch_advanced
           batch5.1).
  vm_compute. reflexivity.
Defined.

(** ** The constructor, the selection and the sequential step together *)

Section composition.
Context {AS : ArgSort} {ASS : ArgSortSpec AS}.
Context {RS : RandomState} {RSS : RandomStateSpec RS} {CO : Collaborators RS}.

Lemma MOEAD_init_request_ok (dirs : list (list Q)) (n : Z)
    (d : decomposition_option) (p : Q) (self : MOEAD) (n_par j : nat) :
  MOEAD_init dirs n d p = Ok self →
  (Z.of_nat n_par <= n_neighbors self)%Z →
  j < length dirs →
  request_ok (neighbors self) (length dirs) n_par j.
Proof.
  intros Hinit Hn Hj.
  destruct (MOEAD_init_sizes _ _ _ _ _ Hinit) as (_ & Hlen & _).
  destruct (lookup_lt_is_Some_2 (neighbors self) j) as [row Hrow]; [lia|].
  destruct (MOEAD_init_row_NoDup _ _ _ _ _ _ _ Hinit Hrow) as [Hnd _].
  assert (HK : n_neighbors self = Z.min (Z.of_nat (length dirs)) n).
  { unfold MOEAD_init in Hinit. by injection Hinit as <-. }
  split; [lia|]. exists row. split; [done|]. split; [done|].
  destruct (lookup_lt_is_Some_2 dirs j Hj) as [u Hu].
  rewrite (MOEAD_init_row _ _ _ _ _ _ _ Hinit Hu) in Hrow.
  injection Hrow as <-.
  rewrite py_slice_to_length.
  rewrite (Permutation_length (argsort_row_perm dirs u)), length_seq.
  destruct (0 <=? _)%Z eqn:E; [|apply Z.leb_gt in E]; lia.
Qed.

Lemma requests_served_valid (neighbors : list (list nat)) (prob : Q)
    (len_pop n_par : nat) (k : list nat) (s s' : rng) (P : list (list nat)) :
  Forall (Forall (λ a, a < len_pop)) neighbors →
  requests_served neighbors prob len_pop n_par k s P s' →
  length P = length k ∧
  Forall (λ row, length row = n_par ∧ NoDup row ∧
                 Forall (λ a, a < len_pop) row) P.
Proof.
  intros Htable. induction 1 as [s|j k s row s1 P s2 _ Hvalid _ [IHlen IH]].
  - split; [done|constructor].
  - split; [simpl; lia|]. constructor; [|done].
    destruct Hvalid as (Hlen & Hnd & Hfrom). split; [done|]. split; [done|].
    destruct (Qltb _ prob); [|done].
    destruct Hfrom as (Nj & HNj & Hsub).
    apply Forall_forall. intros a Ha.
    rewrite Forall_forall in Htable.
    assert (HNj' : Nj ∈ neighbors) by (apply list_elem_of_lookup; eauto).
    specialize (Htable Nj HNj'). rewrite Forall_forall in Htable.
    apply Htable, Hsub, Ha.
Qed.

(** X21. With the table built by [__init__] from M directions and a
    number of parents that does not exceed the effective neighborhood
    size, [_do] returns for any anchors below M: one tuple per anchor,
    each of [n_parents] distinct indices below M, so every selected
    parent is an individual of the population. *)
Theorem MOEAD_selection_yields_population_indices (dirs : list (list Q))
    (n : Z) (d : decomposition_option) (p : Q) (self : MOEAD)
    (n_par : nat) (k : list nat) (s : rng) :
  MOEAD_init dirs n d p = Ok self →
  (Z.of_nat n_par <= n_neighbors self)%Z →
  Forall (λ j, j < length dirs) k →
  ∃ P s',
    NeighborhoodSelection_do (neighbors self) (prob_neighbor_mating self)
      (length dirs) (length k) n_par (Some k) s = Ok (P, s') ∧
    length P = length k ∧
    Forall (λ row, length row = n_par ∧ NoDup row ∧
                   Forall (λ a, a < length dirs) row) P.
Proof.
  intros Hinit Hn Hk.
  assert (Hall : Forall (request_ok (neighbors self) (length dirs) n_par) k).
  { eapply Forall_impl; [exact Hk|]. intros j Hj.
    by eapply MOEAD_init_request_ok. }
  destruct (select_rows_served (neighbors self) (prob_neighbor_mating self)
              (length dirs) n_par k s Hall) as (P & s' & HP & Hserved).
  exists P, s'. split.
  { unfold NeighborhoodSelection_do. by rewrite Nat.eqb_refl. }
  eapply requests_served_valid; [|exact Hserved].
  apply Forall_forall. intros row [i Hrow]%list_elem_of_lookup.
  by destruct (MOEAD_init_row_NoDup _ _ _ _ _ _ _ Hinit Hrow).
Qed.

(** X22. One step of the loop of [MOEAD._advance] for index [i] is
    local: population slots outside row [i] of the table keep their
    individuals, and a slot that changes refers to the offspring of the
    step, an evaluated individual that did not exist before. *)
Theorem MOEAD_advance_one_local (self : MOEAD) (st st' : State) (i : nat)
    (s s' : rng) (N : list nat) :
  MOEAD_advance_one self st i s = Ok (st', s') →
  neighbors self !! i = Some N →
  ∃ off off_F,
    heap st !! off = None ∧ get_F (heap st') off = Ok off_F ∧
    ∀ n, pop st' !! n = pop st !! n ∨ (n ∈ N ∧ pop st' !! n = Some off).
Proof.
  intros (off & st1 & off_F & z & Hoff & HF & _ & Hrep)%MOEAD_advance_one_inv HN.
  destruct (MOEAD_offspring_inv _ _ _ _ _ _ _ Hoff) as (Hfresh & _ & Hpop1).
  apply MOEAD_replace_slots in Hrep
    as (N' & off_F' & HN' & _ & _ & Hst' & _ & Hslots).
  assert (N' = N) as -> by congruence.
  exists off, off_F. split; [done|]. split.
  { rewrite Hst'. done. }
  intros n. simpl in Hslots.
  destruct (Hslots n) as [(Hnew & Hn & _)|[Hsame _]].
  - by right.
  - left. congruence.
Qed.
End composition.

Lemma MOEAD_selection_yields_population_indices_witness :
  ∃ P s',
    NeighborhoodSelection_do (neighbors alg5) (prob_neighbor_mating alg5)
      (length dirs5) (length [4; 0; 2]) 3 (Some [4; 0; 2]) 0 = Ok (P, s') ∧
    length P = length [4; 0; 2] ∧
    Forall (λ row, length row = 3 ∧ NoDup row ∧
                   Forall (λ a, a < length dirs5) row) P.
Proof.
  apply (MOEAD_selection_yields_population_indices
           (ASS := argsort_merge_spec) (RSS := counter_rng_spec)
           dirs5 3 (ByName "auto") (9 # 10)%Q alg5 3 [4; 0; 2] 0).
  - reflexivity.
  - simpl. lia.
  - repeat constructor.
Defined.

Lemma st5_advanced_one_eq :
  MOEAD_advance_one alg5 st5 2 0 = Ok (st5_advanced_one, 2).
Proof. vm_compute. reflexivity. Qed.

Lemma MOEAD_advance_one_local_witness :
  ∃ off off_F,
    heap st5 !! off = None ∧ get_F (heap st5_advanced_one) off = Ok off_F ∧
    ∀ n, pop st5_advanced_one !! n = pop st5 !! n ∨
         (n ∈ [2; 1; 3] ∧ pop st5_advanced_one !! n = Some off).
Proof.
  exact (MOEAD_advance_one_local (RS := counter_rng) alg5 st5
           st5_advanced_one 2 0 2 [2; 1; 3] st5_advanced_one_eq eq_refl).
Defined.
